(** * passenger-exporter: the process-identifier mapper and the collector

    A shallow embedding of [updateProcesses], [Exporter.Collect] and
    [NewExporter] from [main.go], and the properties of the stable slot
    assignment.

    Conventions of the embedding:
    - Go's [int] and [int64] are modelled as [Z].  The only arithmetic on
      them is [count + i] on two slice lengths and a division by the
      constant [microsecondsPerSecond]; neither can leave the 64-bit range.
    - [map[string]int] is a [gmap string Z]; slices are lists.
    - A run-time panic is an explicit error result ([Panic]).
    - [float64(x)] is kept symbolic: a metric records the integer that is
      handed to [float64]. *)

From stdpp Require Import gmap strings list fin_maps pretty.

#[local] Set Warnings "-clear-no-such-hyp".

Local Open Scope Z_scope.

(** ** Run-time panics as an error monad *)

Inductive panic : Type :=
  | MakesliceLenOutOfRange            (* make([]T, n): n < 0 or beyond the limit *)
  | IndexOutOfRange (index len : Z)   (* s[index] with index outside [0, len) *)
  | InconsistentLabelCardinality.     (* MustNewConstMetric: wrong number of labels *)

Inductive result (A : Type) : Type :=
  | Ok (a : A)
  | Panic (p : panic).
Arguments Ok {A} a.
Arguments Panic {A} p.

Global Instance result_ret : MRet result := λ A a, Ok a.
Global Instance result_bind : MBind result := λ A B k r,
  match r with
  | Ok a => k a
  | Panic p => Panic p
  end.

(** ** The parts of passenger's status the collector reads *)

Record Process := {
  PID : string;
  RequestsProcessed : Z;
  SpawnStartTime : Z;
  RealMemory : Z;
}.

Record Group := {
  RequestQueueSize : Z;
  ProcessesSpawning : Z;
  Processes : list Process;
}.

Record SuperGroup := {
  Name : string;
  SGroup : Group;      (* the field [Group] of [SuperGroup] *)
}.

Record Info := {
  PassengerVersion : string;
  AppGroupCount : Z;
  CurrentProcessCount : Z;
  MaxProcessCount : Z;
  TopLevelRequestQueueSize : Z;
  SuperGroups : list SuperGroup;
}.

Definition microsecondsPerSecond : Z := 1000000.

(** ** [updateProcesses] *)

(** The largest allocation the Go runtime accepts, [maxAlloc]: [1 << 48]
    bytes on the 64-bit platforms the exporter is built for; and the size
    of a string header (data pointer and length). *)
Definition maxAlloc : Z := 281474976710656.
Definition stringSize : Z := 16.

(** [make([]string, n)]: [n] empty strings.  The runtime's [makeslice]
    panics ("len out of range") when [n] is negative or when
    [n * stringSize] exceeds [maxAlloc].  Running out of memory on an
    allocation that passes this check is a fatal error of the runtime, not
    a panic, and is not modelled: the properties below speak about calls
    that return or about the panic a call ends with. *)
Definition make_strings (n : Z) : result (list string) :=
  if decide (n < 0 ∨ maxAlloc < stringSize * n)
  then Panic MakesliceLenOutOfRange
  else Ok (replicate (Z.to_nat n) "").

(** [s[i] = x] with Go's bounds check. *)
Definition slice_store (s : list string) (i : Z) (x : string) : result (list string) :=
  if decide (0 ≤ i < Z.of_nat (length s)) then Ok (<[Z.to_nat i := x]> s)
  else Panic (IndexOutOfRange i (Z.of_nat (length s))).

(** [if len(processes) > maxProcesses { processes = processes[:maxProcesses] }].
    It runs after [make_strings] succeeded, so [maxProcesses] is not negative
    and the slice expression itself cannot panic. *)
Definition truncate (processes : list Process) (maxProcesses : Z) : list Process :=
  if decide (Z.of_nat (length processes) > maxProcesses)
  then take (Z.to_nat maxProcesses) processes
  else processes.

(** First loop: a pid known to [old] is written into [found] at its old
    identifier, any other pid is appended to [missing]. *)
Fixpoint classify (old : gmap string Z) (processes : list Process)
    (found missing : list string) : result (list string * list string) :=
  match processes with
  | [] => Ok (found, missing)
  | p :: processes =>
      match old !! PID p with
      | Some id =>
          found ← slice_store found id (PID p);
          classify old processes found missing
      | None => classify old processes found (missing ++ [PID p])
      end
  end.

(** Second loop, [for i, pid := range found], with the cursor [j] into
    [missing].  [missing !! j = None] is the test [j >= len(missing)]. *)
Fixpoint scan (found : list string) (i : nat) (missing : list string) (j : nat)
    (updated : gmap string Z) : gmap string Z * nat :=
  match found with
  | [] => (updated, j)
  | pid :: found =>
      if decide (pid = "") then
        match missing !! j with
        | None => scan found (S i) missing j updated            (* continue *)
        | Some pid => scan found (S i) missing (S j) (<[pid := Z.of_nat i]> updated)
        end
      else scan found (S i) missing j (<[pid := Z.of_nat i]> updated)
  end.

(** Third loop, [for i, pid := range missing[j:] { updated[pid] = count + i }]. *)
Fixpoint overflow (rest : list string) (count : Z) (i : nat)
    (updated : gmap string Z) : gmap string Z :=
  match rest with
  | [] => updated
  | pid :: rest => overflow rest count (S i) (<[pid := count + Z.of_nat i]> updated)
  end.

Definition updateProcesses (old : gmap string Z) (processes : list Process)
    (maxProcesses : Z) : result (gmap string Z) :=
  let updated : gmap string Z := ∅ in
  found ← make_strings maxProcesses;
  let processes := truncate processes maxProcesses in
  '(found, missing) ← classify old processes found [];
  let '(updated, j) := scan found 0 missing 0 updated in
  let updated :=
    if decide (j < length missing)%nat
    then overflow (drop j missing) (Z.of_nat (length found)) 0 updated
    else updated in
  Ok updated.

(** ** The collector *)

(** The metric descriptors built by [NewExporter]. *)
Inductive Desc : Type :=
  | up | version | topLevelRequestQueue | maxProcessCount
  | currentProcessCount | appGroupCount
  | appRequestQueue | appProcsSpawning
  | requestsProcessed | procStartTime | procMemory.

(** The variable labels each descriptor is created with. *)
Definition variableLabels (d : Desc) : list string :=
  match d with
  | up | topLevelRequestQueue | maxProcessCount
  | currentProcessCount | appGroupCount => []
  | version => ["version"]
  | appRequestQueue | appProcsSpawning => ["name"]
  | requestsProcessed | procStartTime | procMemory => ["name"; "id"]
  end.

Inductive ValueType : Type := CounterValue | GaugeValue.

Record Metric := {
  desc : Desc;
  valueType : ValueType;
  value : Z;                     (* the argument of [float64(...)] *)
  labelValues : list string;
}.

(** [prometheus.MustNewConstMetric]: the client library rejects a metric
    whose label values do not match the descriptor's variable labels in
    number, and the [Must] variant turns that into a panic. *)
Definition MustNewConstMetric (d : Desc) (vt : ValueType) (v : Z)
    (labels : list string) : result Metric :=
  if decide (length labels = length (variableLabels d))
  then Ok {| desc := d; valueType := vt; value := v; labelValues := labels |}
  else Panic InconsistentLabelCardinality.

(** [strconv.Itoa]: decimal digits, with a leading minus sign for a
    negative number. *)
Definition Itoa (n : Z) : string := pretty n.

(** The ways [Exporter.status] fails: the command could not be started, it
    ran past the timeout, it exited abnormally, or its output did not decode. *)
Inductive status_error : Type :=
  | StartFailed | TimedOut | WaitFailed | DecodeFailed.

(** What a poll acts on: the channel [ch] (the metrics sent so far, oldest
    first), the package-level map [processIdentifiers], and the error log. *)
Record state := {
  ch : list Metric;
  processIdentifiers : gmap string Z;
  errlog : list status_error;
}.

(** [ch <- prometheus.MustNewConstMetric(d, vt, v, labels...)] *)
Definition send (d : Desc) (vt : ValueType) (v : Z) (labels : list string)
    (s : state) : result state :=
  m ← MustNewConstMetric d vt v labels;
  Ok {| ch := ch s ++ [m];
        processIdentifiers := processIdentifiers s;
        errlog := errlog s |}.

Definition Errorf (err : status_error) (s : state) : state :=
  {| ch := ch s;
     processIdentifiers := processIdentifiers s;
     errlog := errlog s ++ [err] |}.

(** [for _, x := range l { body }] over the state. *)
Fixpoint for_range {A} (body : A → state → result state) (l : list A)
    (s : state) : result state :=
  match l with
  | [] => Ok s
  | x :: l => s ← body x s; for_range body l s
  end.

(** The body of the inner loop of [Collect].  Go's [/] on integers
    truncates towards zero, which is [Z.quot]. *)
Definition collectProcess (name : string) (proc : Process) (s : state)
    : result state :=
  match processIdentifiers s !! PID proc with
  | Some bucketID =>
      s ← send procMemory GaugeValue (RealMemory proc) [name; Itoa bucketID] s;
      s ← send requestsProcessed CounterValue (RequestsProcessed proc)
            [name; Itoa bucketID] s;
      send procStartTime GaugeValue
        (SpawnStartTime proc `quot` microsecondsPerSecond)
        [name; Itoa bucketID] s
  | None => Ok s
  end.

(** The body of the outer loop of [Collect], for one supergroup. *)
Definition collectSuperGroup (max : Z) (sg : SuperGroup) (s : state)
    : result state :=
  s ← send appRequestQueue GaugeValue (RequestQueueSize (SGroup sg)) [Name sg] s;
  s ← send appProcsSpawning GaugeValue (ProcessesSpawning (SGroup sg)) [Name sg] s;
  ids ← updateProcesses (processIdentifiers s) (Processes (SGroup sg)) max;
  let s := {| ch := ch s; processIdentifiers := ids; errlog := errlog s |} in
  for_range (collectProcess (Name sg)) (Processes (SGroup sg)) s.

(** [Exporter.Collect].  The outcome of [e.status()] is the argument
    [status]; [int(info.MaxProcessCount)] is the identity on a 64-bit
    platform. *)
Definition Collect (status : status_error + Info) (s : state) : result state :=
  match status with
  | inl err =>
      s ← send up GaugeValue 0 [] s;
      Ok (Errorf err s)
  | inr info =>
      s ← send up GaugeValue 1 [] s;
      s ← send version GaugeValue 1 [PassengerVersion info] s;
      s ← send topLevelRequestQueue GaugeValue (TopLevelRequestQueueSize info) [] s;
      s ← send maxProcessCount GaugeValue (MaxProcessCount info) [] s;
      s ← send currentProcessCount GaugeValue (CurrentProcessCount info) [] s;
      s ← send appGroupCount GaugeValue (AppGroupCount info) [] s;
      for_range (collectSuperGroup (MaxProcessCount info)) (SuperGroups info) s
  end.

(** ** [updateProcesses] over a store of map objects

    A Go map value is a reference.  To speak about what a call does to the
    map it is handed, this second embedding keeps the map objects in a
    store and passes references; it performs the same steps as
    [updateProcesses] above, reading [old] and writing [updated] through
    the store. *)
Module Ref.

(** A reference is the position of the map object in the store; the
    store lists the allocated map objects in allocation order. *)
Abbreviation loc := nat (only parsing).
Abbreviation store := (list (gmap string Z)) (only parsing).

Definition St (A : Type) : Type := store → result A * store.

Definition ret {A} (a : A) : St A := λ h, (Ok a, h).

Definition bind {A B} (m : St A) (k : A → St B) : St B := λ h,
  match m h with
  | (Ok a, h) => k a h
  | (Panic p, h) => (Panic p, h)
  end.

Definition lift {A} (r : result A) : St A := λ h, (r, h).

(** [make(map[string]int, hint)]: a new empty map object.  The size
    hint has no observable effect. *)
Definition make_map : St loc := λ h, (Ok (length h), h ++ [∅]).

(** [id, ok := m[key]].  A reference that names no object reads as the nil
    map, which has no entries. *)
Definition map_lookup (m : loc) (key : string) : St (option Z) := λ h,
  (Ok (h !! m ≫= λ contents, contents !! key), h).

(** [m[key] = v].  The only map written is the one [make_map] has just
    allocated, so the reference always names an object. *)
Definition map_store (m : loc) (key : string) (v : Z) : St unit := λ h,
  (Ok (), alter (λ contents, <[key := v]> contents) m h).

Fixpoint classify (old : loc) (processes : list Process)
    (found missing : list string) : St (list string * list string) :=
  match processes with
  | [] => ret (found, missing)
  | p :: processes =>
      bind (map_lookup old (PID p)) (λ r,
      match r with
      | Some id =>
          bind (lift (slice_store found id (PID p))) (λ found,
          classify old processes found missing)
      | None => classify old processes found (missing ++ [PID p])
      end)
  end.

Fixpoint scan (updated : loc) (found : list string) (i : nat)
    (missing : list string) (j : nat) : St nat :=
  match found with
  | [] => ret j
  | pid :: found =>
      if decide (pid = "") then
        match missing !! j with
        | None => scan updated found (S i) missing j
        | Some pid =>
            bind (map_store updated pid (Z.of_nat i)) (λ _,
            scan updated found (S i) missing (S j))
        end
      else
        bind (map_store updated pid (Z.of_nat i)) (λ _,
        scan updated found (S i) missing j)
  end.

Fixpoint overflow (updated : loc) (rest : list string) (count : Z) (i : nat)
    : St unit :=
  match rest with
  | [] => ret ()
  | pid :: rest =>
      bind (map_store updated pid (count + Z.of_nat i)) (λ _,
      overflow updated rest count (S i))
  end.

Definition updateProcesses (old : loc) (processes : list Process)
    (maxProcesses : Z) : St loc :=
  bind make_map (λ updated,
  bind (lift (make_strings maxProcesses)) (λ found,
  let processes := truncate processes maxProcesses in
  bind (classify old processes found []) (λ '(found, missing),
  bind (scan updated found 0 missing 0) (λ j,
  bind (if decide (j < length missing)%nat
        then overflow updated (drop j missing) (Z.of_nat (length found)) 0
        else ret ()) (λ _,
  ret updated))))).

End Ref.

(** ** Vocabulary of the properties *)

Definition proc (pid : string) : Process :=
  {| PID := pid; RequestsProcessed := 0; SpawnStartTime := 0; RealMemory := 0 |}.

Definition pids (processes : list Process) : list string := PID <$> processes.

(** The first [min(|P|, c)] elements of [P]. *)
Definition firstN (processes : list Process) (c : Z) : list Process :=
  take (Z.to_nat (Z.min (Z.of_nat (length processes)) c)) processes.

(** No two pids share a slot. *)
Definition injective (m : gmap string Z) : Prop :=
  ∀ p q s, m !! p = Some s → m !! q = Some s → p = q.

(** Every slot lies in [[0, c)]. *)
Definition slots_below (c : Z) (m : gmap string Z) : Prop :=
  map_Forall (λ _ s, 0 ≤ s < c) m.

(** The pids of [ps] that [old] knows have their slot in [[0, c)]. *)
Definition retained_below (c : Z) (old : gmap string Z) (ps : list string) : Prop :=
  Forall (λ p, from_option (λ s, 0 ≤ s < c) True (old !! p)) ps.

(** No two different pids of [ps] that [old] knows share a slot in [old]. *)
Definition retained_distinct (old : gmap string Z) (ps : list string) : Prop :=
  Forall (λ p, Forall (λ q, is_Some (old !! p) → old !! p = old !! q → p = q) ps) ps.

(** The empty string is not a pid of [ps] that [old] knows. *)
Definition empty_not_retained (old : gmap string Z) (ps : list string) : Prop :=
  "" ∈ ps → old !! "" = None.

Global Instance slots_below_dec c m : Decision (slots_below c m).
Proof. unfold slots_below. apply _. Defined.

Global Instance retained_below_dec c old ps : Decision (retained_below c old ps).
Proof.
  unfold retained_below. apply Forall_dec. intros p.
  destruct (old !! p); simpl; apply _.
Defined.

Global Instance retained_distinct_dec old ps : Decision (retained_distinct old ps).
Proof. unfold retained_distinct. apply _. Defined.

Global Instance empty_not_retained_dec old ps : Decision (empty_not_retained old ps).
Proof. unfold empty_not_retained. apply _. Defined.

(** *** What the loops compute

    The effect of the first loop when no store panics: [place] is the
    content of [found] and [newPids] the content of [missing]. *)

Definition place_step (old : gmap string Z) (found : list string) (p : string)
    : list string :=
  match old !! p with
  | Some id => <[Z.to_nat id := p]> found
  | None => found
  end.

Definition place (old : gmap string Z) (ps : list string) (found : list string)
    : list string :=
  foldl (place_step old) found ps.

Definition newPids (old : gmap string Z) (ps : list string) : list string :=
  filter (λ p, old !! p = None) ps.

(** The indices, counted from [i], at which [found] holds the empty string. *)
Fixpoint free_slots (found : list string) (i : nat) : list nat :=
  match found with
  | [] => []
  | pid :: found =>
      if decide (pid = "") then i :: free_slots found (S i)
      else free_slots found (S i)
  end.

(** [found] after the first loop, when it had [c] places, all empty. *)
Definition placed (old : gmap string Z) (ps : list string) (c : Z)
    : list string :=
  place old ps (replicate (Z.to_nat c) "").

(** The map the second loop builds from the outcome of the first. *)
Definition slotted (old : gmap string Z) (ps : list string) (c : Z)
    : gmap string Z :=
  (scan (placed old ps c) 0 (newPids old ps) 0 ∅).1.

(** *** The lowest free slot

    [held]: some retained pid (a pid of [ps] that [old] knows) has slot [s]
    in [old].  [given]: one of the first [k] new pids was given slot [s].
    [lowest_free]: [s] is the lowest slot of [[0, c)] that is neither. *)

Definition held (old : gmap string Z) (ps : list string) (s : Z) : Prop :=
  ∃ q, q ∈ ps ∧ old !! q = Some s.

Definition given (updated : gmap string Z) (news : list string) (k : nat)
    (s : Z) : Prop :=
  ∃ k' q, (k' < k)%nat ∧ news !! k' = Some q ∧ updated !! q = Some s.

Definition lowest_free (c : Z) (old : gmap string Z) (ps : list string)
    (updated : gmap string Z) (news : list string) (k : nat) (s : Z) : Prop :=
  0 ≤ s < c ∧ ¬ held old ps s ∧ ¬ given updated news k s ∧
  ∀ s', 0 ≤ s' < s → held old ps s' ∨ given updated news k s'.

(** *** The properties as the specification words them *)

Definition continuity_claim (old : gmap string Z) (processes : list Process)
    (c : Z) : Prop :=
  ∀ pid s updated,
    old !! pid = Some s → pid ∈ pids (firstN processes c) →
    updateProcesses old processes c = Ok updated →
    updated !! pid = Some s.

Definition idempotence_claim (old : gmap string Z) (processes : list Process)
    (c : Z) : Prop :=
  NoDup (pids processes) → Z.of_nat (length processes) ≤ c →
  (updateProcesses old processes c ≫= λ updated, updateProcesses updated processes c)
  = updateProcesses old processes c.

Definition cardinality_claim (old : gmap string Z) (processes : list Process)
    (c : Z) : Prop :=
  NoDup (pids processes) →
  ∀ updated, updateProcesses old processes c = Ok updated →
    Z.of_nat (size updated) = Z.min (Z.of_nat (length processes)) c ∧
    dom updated = list_to_set (pids (firstN processes c)).

Definition assignment_claim (old : gmap string Z) (processes : list Process)
    (c : Z) : Prop :=
  slots_below c old → NoDup (pids processes) →
  Z.of_nat (length processes) ≤ c →
  ∀ updated, updateProcesses old processes c = Ok updated →
    ∀ k pid, newPids old (pids processes) !! k = Some pid →
      ∃ s, updated !! pid = Some s ∧
           lowest_free c old (pids processes) updated
             (newPids old (pids processes)) k s.

(** *** The collector, as the specification words it *)

(** The three measurements of one process in slot [slot]. *)
Definition processMetrics (name : string) (slot : Z) (proc : Process)
    : list Metric :=
  [ {| desc := procMemory; valueType := GaugeValue;
       value := RealMemory proc; labelValues := [name; Itoa slot] |};
    {| desc := requestsProcessed; valueType := CounterValue;
       value := RequestsProcessed proc; labelValues := [name; Itoa slot] |};
    {| desc := procStartTime; valueType := GaugeValue;
       value := SpawnStartTime proc `quot` 1000000;
       labelValues := [name; Itoa slot] |} ].

(** What the inner loop sends for one process under the map [ids]. *)
Definition translateProcess (name : string) (ids : gmap string Z)
    (proc : Process) : list Metric :=
  match ids !! PID proc with
  | Some slot => processMetrics name slot proc
  | None => []
  end.

(** The snapshot's process list, flattened across all groups. *)
Definition flattened (info : Info) : list Process :=
  concat ((λ sg, Processes (SGroup sg)) <$> SuperGroups info).

(** One call of [updateProcesses] per supergroup, in order, each on the
    map the previous call returned. *)
Fixpoint updateEach (max : Z) (sgs : list SuperGroup) (ids : gmap string Z)
    : result (gmap string Z) :=
  match sgs with
  | [] => Ok ids
  | sg :: sgs =>
      ids ← updateProcesses ids (Processes (SGroup sg)) max;
      updateEach max sgs ids
  end.

Definition single_update_claim (info : Info) (s : state) : Prop :=
  ∀ s', Collect (inr info) s = Ok s' →
    updateProcesses (processIdentifiers s) (flattened info) (MaxProcessCount info)
    = Ok (processIdentifiers s') ∧
    dom (processIdentifiers s') = list_to_set (pids (flattened info)).

(** The time series a measurement belongs to: its descriptor and its
    label values. *)
Definition series (m : Metric) : Desc * list string := (desc m, labelValues m).

(** The descriptors of the per-process measurements. *)
Definition processDesc (d : Desc) : bool :=
  match d with
  | requestsProcessed | procStartTime | procMemory => true
  | _ => false
  end.

(** The descriptors of the per-group and per-process measurements. *)
Definition groupDesc (d : Desc) : bool :=
  match d with
  | appRequestQueue | appProcsSpawning => true
  | d => processDesc d
  end.

(** What the body of the outer loop sends for one supergroup when the map
    after its update is [ids]. *)
Definition groupMetrics (sg : SuperGroup) (ids : gmap string Z) : list Metric :=
  [ {| desc := appRequestQueue; valueType := GaugeValue;
       value := RequestQueueSize (SGroup sg); labelValues := [Name sg] |};
    {| desc := appProcsSpawning; valueType := GaugeValue;
       value := ProcessesSpawning (SGroup sg); labelValues := [Name sg] |} ]
  ++ concat (translateProcess (Name sg) ids <$> Processes (SGroup sg)).

(** ** [NewExporter] *)

(** [strings.Split(s, " ")]: the fields of [s] between single spaces.  Two
    adjacent spaces, or a space at either end, give an empty field.  The
    result is never empty, so the last branch is not reached. *)
Fixpoint Split (s : string) : list string :=
  match s with
  | EmptyString => [""]
  | String a s =>
      if decide (a = Ascii.Space) then "" :: Split s
      else match Split s with
           | field :: fields => String a field :: fields
           | [] => [String a ""]
           end
  end.

(** Whether a string contains a space. *)
Fixpoint has_space (s : string) : bool :=
  match s with
  | EmptyString => false
  | String a s => bool_decide (a = Ascii.Space) || has_space s
  end.

(** The fields of [Exporter] that [NewExporter] computes from its
    arguments.  The descriptors are the constants of [Desc]; the timeout
    is kept as the number of seconds given, where the code stores
    [time.Duration(timeout * float64(time.Second))]. *)
Record Exporter (float64 : Type) := {
  cmd : string;
  args : list string;
  timeout : float64;
}.
Arguments cmd {float64} e.
Arguments args {float64} e.
Arguments timeout {float64} e.

(** [NewExporter]: [cmdComponents[0]] is an index expression with Go's
    bounds check, [cmdComponents[1:]] a slice expression. *)
Definition NewExporter {float64 : Type} (command : string) (seconds : float64)
    : result (Exporter float64) :=
  let cmdComponents := Split command in
  match cmdComponents !! 0%nat with
  | Some first =>
      Ok {| cmd := first; args := drop 1 cmdComponents; timeout := seconds |}
  | None => Panic (IndexOutOfRange 0 (Z.of_nat (length cmdComponents)))
  end.

(** * Properties *)

(** ** The scenarios of the specification and of the repository's tests *)

Example scenario_A :
  updateProcesses ∅ [proc "abc"; proc "cdf"; proc "dfe"] 3
  = Ok (<["abc" := 0]> (<["cdf" := 1]> (<["dfe" := 2]> ∅))).
Proof. by vm_compute. Qed.

Example scenario_C_surge :
  updateProcesses (<["abc" := 0]> (<["def" := 1]> (<["hij" := 2]> ∅)))
    [proc "abc"; proc "def"; proc "hij"; proc "klm"] 3
  = Ok (<["abc" := 0]> (<["def" := 1]> (<["hij" := 2]> ∅))).
Proof. by vm_compute. Qed.

Example scenario_C_settle :
  updateProcesses (<["abc" := 0]> (<["def" := 1]> (<["hij" := 2]> ∅)))
    [proc "abc"; proc "def"; proc "klm"] 3
  = Ok (<["abc" := 0]> (<["def" := 1]> (<["klm" := 2]> ∅))).
Proof. by vm_compute. Qed.

Example test_first_process_killed :
  updateProcesses (<["abc" := 0]> (<["cdf" := 1]> (<["dfe" := 2]> ∅)))
    [proc "cdf"; proc "dfe"] 3
  = Ok (<["cdf" := 1]> (<["dfe" := 2]> ∅)).
Proof. by vm_compute. Qed.

Example test_increase_processes :
  updateProcesses (<["abc" := 0]> (<["cdf" := 1]> (<["dfe" := 2]> ∅)))
    [proc "abc"; proc "cdf"; proc "dfe"; proc "ghi"; proc "jkl"; proc "lmn"] 9
  = Ok (<["abc" := 0]> (<["cdf" := 1]> (<["dfe" := 2]>
       (<["ghi" := 3]> (<["jkl" := 4]> (<["lmn" := 5]> ∅)))))).
Proof. by vm_compute. Qed.

(** A poll of a pool with one group and two processes, the second of them
    new: [up], [version], the four pool gauges, the two group gauges, and
    three measurements per process under its slot. *)
Example Collect_success :
  let metric d vt v labels :=
    {| desc := d; valueType := vt; value := v; labelValues := labels |} in
  let p1 := {| PID := "101"; RequestsProcessed := 12;
               SpawnStartTime := 1700000000123456; RealMemory := 2048 |} in
  let p2 := {| PID := "205"; RequestsProcessed := 3;
               SpawnStartTime := 1700000100999999; RealMemory := 1024 |} in
  let info :=
    {| PassengerVersion := "6.0.17"; AppGroupCount := 1;
       CurrentProcessCount := 2; MaxProcessCount := 3;
       TopLevelRequestQueueSize := 5;
       SuperGroups :=
         [{| Name := "/srv/app/demo";
             SGroup := {| RequestQueueSize := 4; ProcessesSpawning := 1;
                          Processes := [p1; p2] |} |}] |} in
  Collect (inr info)
    {| ch := []; processIdentifiers := <["101" := 1]> (<["77" := 0]> ∅);
       errlog := [] |}
  = Ok {| ch :=
            [ metric up GaugeValue 1 [];
              metric version GaugeValue 1 ["6.0.17"];
              metric topLevelRequestQueue GaugeValue 5 [];
              metric maxProcessCount GaugeValue 3 [];
              metric currentProcessCount GaugeValue 2 [];
              metric appGroupCount GaugeValue 1 [];
              metric appRequestQueue GaugeValue 4 ["/srv/app/demo"];
              metric appProcsSpawning GaugeValue 1 ["/srv/app/demo"];
              metric procMemory GaugeValue 2048 ["/srv/app/demo"; "1"];
              metric requestsProcessed CounterValue 12 ["/srv/app/demo"; "1"];
              metric procStartTime GaugeValue 1700000000 ["/srv/app/demo"; "1"];
              metric procMemory GaugeValue 1024 ["/srv/app/demo"; "0"];
              metric requestsProcessed CounterValue 3 ["/srv/app/demo"; "0"];
              metric procStartTime GaugeValue 1700000100 ["/srv/app/demo"; "0"] ];
          processIdentifiers := <["101" := 1]> (<["205" := 0]> ∅);
          errlog := [] |}.
Proof. by vm_compute. Qed.

(** ** The error monad *)

Lemma bind_Ok {A B} (r : result A) (k : A → result B) (b : B) :
  r ≫= k = Ok b ↔ ∃ a, r = Ok a ∧ k a = Ok b.
Proof.
  destruct r as [a|p]; simpl.
  - split; [eauto | by intros (? & [= <-] & ?)].
  - split; [done | by intros (? & ? & ?)].
Qed.

(** ** Truncation *)

Lemma truncate_firstN processes c :
  0 ≤ c → truncate processes c = firstN processes c.
Proof.
  intros Hc. unfold truncate, firstN. case_decide.
  - by rewrite Z.min_r by lia.
  - rewrite Z.min_l by lia. rewrite Nat2Z.id. by rewrite firstn_all.
Qed.

Lemma length_truncate processes c :
  0 ≤ c → Z.of_nat (length (truncate processes c)) ≤ c.
Proof.
  intros Hc. unfold truncate. case_decide; [|lia].
  rewrite length_take. lia.
Qed.

Lemma length_firstN processes c :
  0 ≤ c →
  Z.of_nat (length (firstN processes c)) = Z.min (Z.of_nat (length processes)) c.
Proof. intros Hc. unfold firstN. rewrite length_take. lia. Qed.

(** ** The first loop *)

Lemma length_place_step old found p :
  length (place_step old found p) = length found.
Proof. unfold place_step. destruct (old !! p); [apply length_insert | done]. Qed.

Lemma length_place old ps found : length (place old ps found) = length found.
Proof.
  revert found. induction ps as [|p ps IH]; intros found; [done|].
  simpl. fold (place old ps (place_step old found p)).
  by rewrite IH, length_place_step.
Qed.

Lemma place_snoc old ps p found :
  place old (ps ++ [p]) found = place_step old (place old ps found) p.
Proof. unfold place. by rewrite foldl_app. Qed.

Lemma newPids_snoc old ps p :
  newPids old (ps ++ [p]) =
  newPids old ps ++ (if old !! p is None then [p] else []).
Proof.
  unfold newPids. rewrite filter_app. f_equal.
  destruct (old !! p) eqn:E.
  - by rewrite filter_cons_False, filter_nil by (rewrite E; done).
  - by rewrite filter_cons_True, filter_nil by done.
Qed.

Lemma retained_below_cons c old p ps :
  retained_below c old (p :: ps) ↔
  (∀ s, old !! p = Some s → 0 ≤ s < c) ∧ retained_below c old ps.
Proof.
  unfold retained_below. rewrite Forall_cons.
  destruct (old !! p); simpl; naive_solver.
Qed.

Lemma retained_below_spec c old ps :
  retained_below c old ps ↔ ∀ p s, p ∈ ps → old !! p = Some s → 0 ≤ s < c.
Proof.
  unfold retained_below. rewrite Forall_forall. split.
  - intros H p s Hp E. specialize (H p Hp). by rewrite E in H.
  - intros H p Hp. destruct (old !! p) eqn:E; simpl; eauto.
Qed.

(** The loop returns exactly when every retained pid has its old slot
    inside [found], and then it returns [place] and [newPids]. *)
Lemma classify_Ok old processes found missing :
  retained_below (Z.of_nat (length found)) old (pids processes) →
  classify old processes found missing
  = Ok (place old (pids processes) found, missing ++ newPids old (pids processes)).
Proof.
  revert found missing.
  induction processes as [|p processes IH]; intros found missing Hb; simpl.
  - by rewrite app_nil_r.
  - apply retained_below_cons in Hb as [Hp Hb].
    unfold newPids. fold (PID <$> processes). fold (pids processes).
    unfold place_step at 1.
    destruct (old !! PID p) as [id|] eqn:E.
    + rewrite filter_cons_False by (rewrite E; done).
      unfold slice_store. rewrite decide_True by eauto. simpl.
      apply IH. by rewrite length_insert.
    + rewrite filter_cons_True by done.
      rewrite IH by done. by rewrite <-app_assoc.
Qed.

Lemma classify_inv old processes found missing found' missing' :
  classify old processes found missing = Ok (found', missing') →
  retained_below (Z.of_nat (length found)) old (pids processes).
Proof.
  revert found missing.
  induction processes as [|p processes IH]; intros found missing; simpl.
  - intros _. constructor.
  - intros H. apply retained_below_cons.
    destruct (old !! PID p) as [id|] eqn:E.
    + apply bind_Ok in H as (f & Hs & H). unfold slice_store in Hs.
      case_decide; [|done]. injection Hs as <-.
      apply IH in H. rewrite length_insert in H. naive_solver.
    + apply IH in H. naive_solver.
Qed.

(** ** Counting the empty places of [found] *)

Lemma length_free_slots_insert found k x i :
  (length (free_slots found i) ≤ S (length (free_slots (<[k := x]> found) i)))%nat.
Proof.
  revert k i. induction found as [|y found IH]; intros k i; [simpl; lia|].
  destruct k as [|k]; simpl.
  - repeat case_decide; simpl; lia.
  - specialize (IH k (S i)). case_decide; simpl; lia.
Qed.

Lemma length_free_slots_place old ps found i :
  (length (free_slots found i) + length (newPids old ps)
   ≤ length (free_slots (place old ps found) i) + length ps)%nat.
Proof.
  induction ps as [|p ps IH] using rev_ind; [simpl; lia|].
  rewrite place_snoc, newPids_snoc, !length_app. unfold place_step. simpl.
  destruct (old !! p).
  - pose proof (length_free_slots_insert (place old ps found) (Z.to_nat z) p i).
    simpl. lia.
  - simpl. lia.
Qed.

Lemma length_free_slots_replicate n i :
  length (free_slots (replicate n "") i) = n.
Proof. revert i. induction n as [|n IH]; intros i; simpl; [done|]. by rewrite IH. Qed.

(** ** The second loop *)

(** Where the cursor into [missing] stops: one new pid is consumed per empty
    place, until [missing] is exhausted. *)
Lemma scan_cursor found i missing j updated :
  (j ≤ length missing)%nat →
  (scan found i missing j updated).2
  = ((j + length (free_slots found i)) `min` length missing)%nat.
Proof.
  revert i j updated.
  induction found as [|pid found IH]; intros i j updated Hj; simpl; [lia|].
  case_decide; simpl.
  - destruct (missing !! j) as [q|] eqn:E.
    + apply lookup_lt_Some in E. rewrite IH by lia. lia.
    + apply lookup_ge_None in E. rewrite IH by lia. lia.
  - by apply IH.
Qed.

(** A key that the loop never writes keeps its entry. *)
Lemma scan_frame found i missing j updated p :
  (p ∈ found → p = "") → p ∉ drop j missing →
  (scan found i missing j updated).1 !! p = updated !! p.
Proof.
  revert i j updated.
  induction found as [|pid found IH]; intros i j updated Hf Hm; simpl; [done|].
  assert (p ∈ found → p = "") as Hf' by (intros ?; apply Hf; by right).
  case_decide as Hpid.
  - destruct (missing !! j) as [q|] eqn:E.
    + rewrite (drop_S _ _ _ E) in Hm. apply not_elem_of_cons in Hm as [Hq Hm].
      rewrite IH by done. by rewrite lookup_insert_ne.
    + by apply IH.
  - rewrite IH by done. rewrite lookup_insert_ne; [done|].
    intros ->. apply Hpid, Hf. by left.
Qed.

(** A pid that sits at exactly one place of [found] is mapped to that place. *)
Lemma scan_lookup_found found i missing j updated k p :
  found !! k = Some p → p ≠ "" →
  (∀ k', found !! k' = Some p → k' = k) →
  p ∉ drop j missing →
  (scan found i missing j updated).1 !! p = Some (Z.of_nat (i + k)).
Proof.
  revert i j updated k.
  induction found as [|pid found IH]; intros i j updated k Hk Hp Huniq Hm;
    [done|].
  destruct k as [|k]; simpl in *.
  - injection Hk as ->. rewrite decide_False by done.
    rewrite scan_frame; [by rewrite lookup_insert_eq, Nat.add_0_r| |done].
    intros [k' Hk']%list_elem_of_lookup. by specialize (Huniq (S k') Hk').
  - assert (pid ≠ p) as Hne by (intros ->; by specialize (Huniq 0%nat eq_refl)).
    assert (∀ k', found !! k' = Some p → k' = k) as Huniq'.
    { intros k' Hk'. specialize (Huniq (S k') Hk'). lia. }
    replace (i + S k)%nat with (S i + k)%nat by lia.
    case_decide.
    + destruct (missing !! j) as [q|] eqn:E.
      * apply IH; [done..|]. rewrite (drop_S _ _ _ E) in Hm.
        by apply not_elem_of_cons in Hm as [_ Hm].
      * by apply IH.
    + by apply IH.
Qed.

(** The [k]-th pid still to be placed goes to the [k]-th empty place. *)
Lemma scan_lookup_new found i missing j updated k p e :
  missing !! (j + k)%nat = Some p →
  free_slots found i !! k = Some e →
  (p ∈ found → p = "") →
  NoDup (drop j missing) →
  (scan found i missing j updated).1 !! p = Some (Z.of_nat e).
Proof.
  revert i j updated k.
  induction found as [|pid found IH]; intros i j updated k Hp He Hf Hnd;
    [done|].
  assert (p ∈ found → p = "") as Hf' by (intros ?; apply Hf; by right).
  simpl in *. case_decide as Hpid.
  - destruct (missing !! j) as [q|] eqn:E.
    + rewrite (drop_S _ _ _ E) in Hnd. apply NoDup_cons in Hnd as [Hq Hnd].
      destruct k as [|k]; simpl in He.
      * injection He as <-. rewrite Nat.add_0_r in Hp. simplify_eq.
        rewrite scan_frame by done. by rewrite lookup_insert_eq.
      * apply (IH _ _ _ k); [|done..]. by replace (S j + k)%nat with (j + S k)%nat by lia.
    + apply lookup_ge_None in E. apply lookup_lt_Some in Hp. lia.
  - by apply (IH _ _ _ k).
Qed.

(** The keys after the loop: those before it, the non-empty entries of
    [found], and as many pids of [missing] as there are empty places. *)
Lemma scan_dom found i missing j updated p :
  is_Some ((scan found i missing j updated).1 !! p) ↔
  is_Some (updated !! p) ∨ (p ∈ found ∧ p ≠ "")
  ∨ p ∈ take (length (free_slots found i)) (drop j missing).
Proof.
  revert i j updated.
  induction found as [|pid found IH]; intros i j updated; simpl.
  - rewrite elem_of_nil. set_solver.
  - case_decide as Hpid.
    + destruct (missing !! j) as [q|] eqn:E.
      * rewrite IH, (drop_S _ _ _ E). simpl.
        rewrite lookup_insert_is_Some, !elem_of_cons.
        destruct (decide (q = p)); naive_solver.
      * rewrite IH. apply lookup_ge_None in E.
        rewrite !drop_ge by done. rewrite !take_nil, elem_of_cons. naive_solver.
    + rewrite IH, lookup_insert_is_Some, elem_of_cons.
      destruct (decide (pid = p)); naive_solver.
Qed.

Lemma injective_insert_fresh (m : gmap string Z) q v :
  injective m → (∀ k s, m !! k = Some s → s ≠ v) → injective (<[q := v]> m).
Proof.
  intros Hinj Hfresh a b s Ha Hb.
  destruct (decide (q = a)) as [Ea|Ha'], (decide (q = b)) as [Eb|Hb'];
    [congruence|subst a|subst b|].
  - rewrite lookup_insert_eq in Ha. rewrite lookup_insert_ne in Hb by done.
    injection Ha as <-. by apply Hfresh in Hb.
  - rewrite lookup_insert_eq in Hb. rewrite lookup_insert_ne in Ha by done.
    injection Hb as <-. by apply Hfresh in Ha.
  - rewrite lookup_insert_ne in Ha, Hb by done. eauto.
Qed.

(** Every place is written at most once, so the loop keeps the map free of
    shared slots, and the slots it hands out are places of [found]. *)
Lemma scan_injective found i missing j updated :
  injective updated →
  slots_below (Z.of_nat i) updated →
  injective (scan found i missing j updated).1 ∧
  slots_below (Z.of_nat (i + length found)) (scan found i missing j updated).1.
Proof.
  revert i j updated.
  induction found as [|pid found IH]; intros i j updated Hinj Hb; simpl.
  - by rewrite Nat.add_0_r.
  - assert (∀ q, injective (<[q := Z.of_nat i]> updated) ∧
                 slots_below (Z.of_nat (S i)) (<[q := Z.of_nat i]> updated))
      as Hstep.
    { intros q. split.
      - apply injective_insert_fresh; [done|].
        intros k s Hk. apply Hb in Hk. simpl in Hk. lia.
      - apply map_Forall_insert_2; [lia|].
        eapply map_Forall_impl; [exact Hb|]. simpl. intros; lia. }
    replace (i + S (length found))%nat with (S i + length found)%nat by lia.
    case_decide.
    + destruct (missing !! j) as [q|].
      * by apply IH; apply Hstep.
      * apply IH; [done|]. eapply map_Forall_impl; [exact Hb|]. simpl. intros; lia.
    + by apply IH; apply Hstep.
Qed.

(** ** [updateProcesses] returns, and what it returns *)

(** There are at least as many empty places as new pids: each retained pid
    fills at most one of the [c] places, and the list has at most [c] pids. *)
Lemma free_slots_enough old ps c :
  (length ps ≤ Z.to_nat c)%nat →
  (length (newPids old ps) ≤ length (free_slots (placed old ps c) 0))%nat.
Proof.
  intros Hlen. unfold placed.
  pose proof (length_free_slots_place old ps (replicate (Z.to_nat c) "") 0) as H.
  rewrite length_free_slots_replicate in H. lia.
Qed.

Lemma scan_consumes_all old ps c updated :
  (length ps ≤ Z.to_nat c)%nat →
  (scan (placed old ps c) 0 (newPids old ps) 0 updated).2
  = length (newPids old ps).
Proof.
  intros Hlen. rewrite scan_cursor by lia.
  pose proof (free_slots_enough old ps c Hlen). lia.
Qed.

Lemma length_pids_truncate processes c :
  0 ≤ c → (length (pids (truncate processes c)) ≤ Z.to_nat c)%nat.
Proof.
  intros Hc. unfold pids. rewrite length_fmap.
  pose proof (length_truncate processes c Hc). lia.
Qed.

(** Once [found] is allocated (the capacity is not negative and within
    the allocation limit) and the old slots of the retained pids are places
    of [found], no step of the call panics; the overflow loop is then never
    entered. *)
Lemma updateProcesses_Ok old processes c :
  0 ≤ c → stringSize * c ≤ maxAlloc →
  retained_below c old (pids (truncate processes c)) →
  updateProcesses old processes c
  = Ok (slotted old (pids (truncate processes c)) c).
Proof.
  intros Hc Halloc Hb. unfold updateProcesses, make_strings.
  rewrite decide_False by lia. simpl.
  rewrite classify_Ok by (rewrite length_replicate, Z2Nat.id; done). simpl.
  pose proof (scan_consumes_all old (pids (truncate processes c)) c ∅
                (length_pids_truncate _ _ Hc)) as Hj.
  unfold slotted. fold (placed old (pids (truncate processes c)) c).
  destruct (scan _ _ _ _ _) as [updated j]. simpl in Hj. subst j.
  by rewrite decide_False by lia.
Qed.

(** Conversely these conditions hold whenever the call returns. *)
Lemma updateProcesses_inv_alloc old processes c updated :
  updateProcesses old processes c = Ok updated →
  0 ≤ c ∧ stringSize * c ≤ maxAlloc.
Proof.
  unfold updateProcesses, make_strings. case_decide; [done|]. intros _. lia.
Qed.

Lemma updateProcesses_inv old processes c updated :
  updateProcesses old processes c = Ok updated →
  0 ≤ c ∧ retained_below c old (pids (truncate processes c)) ∧
  updated = slotted old (pids (truncate processes c)) c.
Proof.
  intros H.
  destruct (updateProcesses_inv_alloc _ _ _ _ H) as [Hc Halloc].
  assert (retained_below c old (pids (truncate processes c))) as Hb.
  { unfold updateProcesses, make_strings in H.
    rewrite decide_False in H by lia. simpl in H.
    apply bind_Ok in H as ([f m] & H & _). apply classify_inv in H.
    by rewrite length_replicate, Z2Nat.id in H. }
  rewrite updateProcesses_Ok in H by done. by injection H as <-.
Qed.

(** ** What [found] holds after the first loop *)

Lemma place_entry old ps found k q :
  (∀ p s, p ∈ ps → old !! p = Some s → 0 ≤ s) →
  place old ps found !! k = Some q →
  found !! k = Some q ∨ (q ∈ ps ∧ old !! q = Some (Z.of_nat k)).
Proof.
  induction ps as [|x ps IH] using rev_ind; intros Hb; [by left|].
  rewrite place_snoc. unfold place_step.
  assert (∀ p s, p ∈ ps → old !! p = Some s → 0 ≤ s) as Hb'.
  { intros p s Hp. apply Hb, elem_of_app. by left. }
  destruct (old !! x) as [id|] eqn:E.
  - intros [(<- & <- & _)|[_ H]]%list_lookup_insert_Some.
    + right. split; [apply elem_of_app; right; by left|].
      rewrite E. f_equal. rewrite Z2Nat.id; [done|].
      eapply Hb; [|done]. apply elem_of_app. right. by left.
    + destruct (IH Hb' H) as [?|[? ?]]; [by left|right].
      split; [|done]. apply elem_of_app. by left.
  - intros H. destruct (IH Hb' H) as [?|[? ?]]; [by left|right].
    split; [|done]. apply elem_of_app. by left.
Qed.

(** A slot that some retained pid holds is occupied by a retained pid that
    holds it (the last one in the list). *)
Lemma place_lookup_held old ps found s q :
  (∀ p s, p ∈ ps → old !! p = Some s → 0 ≤ s < Z.of_nat (length found)) →
  q ∈ ps → old !! q = Some s →
  ∃ q', q' ∈ ps ∧ old !! q' = Some s ∧
        place old ps found !! Z.to_nat s = Some q'.
Proof.
  induction ps as [|x ps IH] using rev_ind; intros Hb Hq Hs;
    [by apply elem_of_nil in Hq|].
  assert (∀ p s, p ∈ ps → old !! p = Some s → 0 ≤ s < Z.of_nat (length found))
    as Hb'.
  { intros p s' Hp. apply Hb, elem_of_app. by left. }
  assert (x ∈ ps ++ [x]) as Hx by (apply elem_of_app; right; by left).
  rewrite place_snoc. unfold place_step.
  destruct (decide (old !! x = Some s)) as [E|E].
  - exists x. rewrite E. split_and!; [done..|].
    apply list_lookup_insert_eq. rewrite length_place.
    specialize (Hb x s Hx E). lia.
  - assert (q ∈ ps) as Hq'.
    { apply elem_of_app in Hq as [?|Hq]; [done|].
      apply list_elem_of_singleton in Hq as ->. by rewrite Hs in E. }
    destruct (IH Hb' Hq' Hs) as (q' & Hq1 & Hq2 & Hq3).
    exists q'. split_and!; [apply elem_of_app; by left|done|].
    destruct (old !! x) as [id|] eqn:Ex; [|done].
    rewrite list_lookup_insert_ne; [done|].
    specialize (Hb x id Hx Ex). specialize (Hb' q s Hq' Hs).
    intros Heq. apply E. f_equal. lia.
Qed.

Lemma retained_distinct_spec old ps :
  retained_distinct old ps ↔
  ∀ p q s, p ∈ ps → q ∈ ps → old !! p = Some s → old !! q = Some s → p = q.
Proof.
  unfold retained_distinct. rewrite Forall_forall. split.
  - intros H p q s Hp Hq Ep Eq. specialize (H p Hp).
    rewrite Forall_forall in H. apply (H q Hq); [by rewrite Ep|by rewrite Ep, Eq].
  - intros H p Hp. apply Forall_forall. intros q Hq [s Ep] Eq.
    apply (H p q s); [done..|by rewrite <-Eq].
Qed.

(** When the retained pids have pairwise different slots, each of them
    sits at its own old slot. *)
Lemma place_lookup_retained old ps found s p :
  (∀ p s, p ∈ ps → old !! p = Some s → 0 ≤ s < Z.of_nat (length found)) →
  retained_distinct old ps →
  p ∈ ps → old !! p = Some s →
  place old ps found !! Z.to_nat s = Some p.
Proof.
  intros Hb Hd Hp Hs.
  destruct (place_lookup_held old ps found s p Hb Hp Hs) as (q & Hq & Eq & H).
  rewrite retained_distinct_spec in Hd. by rewrite (Hd p q s).
Qed.

(** ** The empty places, in increasing order *)

Lemma elem_of_free_slots found i e :
  e ∈ free_slots found i ↔ ∃ k, e = (i + k)%nat ∧ found !! k = Some "".
Proof.
  revert i. induction found as [|pid found IH]; intros i; simpl.
  - rewrite elem_of_nil. naive_solver.
  - assert ((∃ k, e = (S i + k)%nat ∧ found !! k = Some "") ↔
            (∃ k, e = (i + S k)%nat ∧ found !! k = Some "")) as Hshift.
    { split; intros (k & -> & ?); exists k; split; [lia|done|lia|done]. }
    case_decide as Hpid.
    + rewrite elem_of_cons, IH, Hshift. split.
      * intros [->|(k & -> & ?)]; [exists 0%nat|exists (S k)]; split;
          [lia|by rewrite Hpid|done..].
      * intros ([|k] & -> & ?); [left; lia|right; eauto].
    + rewrite IH, Hshift. split.
      * intros (k & -> & ?). by exists (S k).
      * intros ([|k] & -> & H); [simpl in H; congruence|eauto].
Qed.

Lemma free_slots_lt found i a b x y :
  free_slots found i !! a = Some x →
  free_slots found i !! b = Some y →
  (a < b)%nat → (x < y)%nat.
Proof.
  revert i a b. induction found as [|pid found IH]; intros i a b; simpl; [done|].
  case_decide.
  - destruct a as [|a], b as [|b]; simpl; try lia.
    + intros [= <-] Hy _.
      apply list_elem_of_lookup_2, elem_of_free_slots in Hy as (k & -> & _). lia.
    + intros Hx Hy ?. apply (IH (S i) a b); [done..|lia].
  - apply IH.
Qed.

(** ** The map that is returned *)

Section slotted.
Context (old : gmap string Z) (ps : list string) (c : Z).
Hypothesis capacity_nonneg : 0 ≤ c.
Hypothesis retained_in_range : retained_below c old ps.

Lemma length_placed : length (placed old ps c) = Z.to_nat c.
Proof. unfold placed. by rewrite length_place, length_replicate. Qed.

Lemma retained_slot_in_range p s :
  p ∈ ps → old !! p = Some s →
  0 ≤ s < Z.of_nat (length (replicate (Z.to_nat c) "")).
Proof using capacity_nonneg retained_in_range.
  intros Hp Hs. rewrite length_replicate, Z2Nat.id by done.
  by apply (proj1 (retained_below_spec c old ps) retained_in_range p).
Qed.

(** An entry of [found] is empty or a retained pid at its old slot. *)
Lemma placed_entry k q :
  placed old ps c !! k = Some q →
  q = "" ∨ (q ∈ ps ∧ old !! q = Some (Z.of_nat k)).
Proof using capacity_nonneg retained_in_range.
  intros H. apply place_entry in H as [H|H]; [|by right|].
  - left. by apply lookup_replicate in H as [-> _].
  - intros p s Hp Hs. by apply (retained_slot_in_range p s).
Qed.

Lemma slotted_retained pid s :
  (∀ q, q ∈ ps → old !! q = Some s → q = pid) →
  pid ≠ "" → pid ∈ ps → old !! pid = Some s →
  slotted old ps c !! pid = Some s.
Proof using capacity_nonneg retained_in_range.
  intros Hown Hne Hp Hs. unfold slotted.
  pose proof (retained_slot_in_range pid s Hp Hs) as Hr.
  rewrite (scan_lookup_found _ _ _ _ _ (Z.to_nat s) pid).
  - simpl. by rewrite Z2Nat.id by lia.
  - destruct (place_lookup_held old ps (replicate (Z.to_nat c) "") s pid)
      as (q & Hq & Eq & H); [apply retained_slot_in_range|done..|].
    by rewrite <-(Hown q Hq Eq).
  - done.
  - intros k' [?|[_ Hk']]%placed_entry; [done|].
    rewrite Hs in Hk'. injection Hk' as ->. by rewrite Nat2Z.id.
  - rewrite drop_0. unfold newPids.
    intros [Hnone _]%list_elem_of_filter. congruence.
Qed.

Lemma slotted_injective :
  injective (slotted old ps c) ∧ slots_below c (slotted old ps c).
Proof using capacity_nonneg.
  destruct (scan_injective (placed old ps c) 0 (newPids old ps) 0 ∅)
    as [Hinj Hb].
  - intros p q s Hp. by rewrite lookup_empty in Hp.
  - apply map_Forall_empty.
  - split; [done|].
    by rewrite Nat.add_0_l, length_placed, Z2Nat.id in Hb.
Qed.

Hypothesis fits : (length ps ≤ Z.to_nat c)%nat.

Lemma slotted_is_Some p :
  retained_distinct old ps → empty_not_retained old ps →
  is_Some (slotted old ps c !! p) ↔ p ∈ ps.
Proof using capacity_nonneg retained_in_range fits.
  intros Hd He. unfold slotted. rewrite scan_dom, drop_0.
  rewrite take_ge by by apply free_slots_enough.
  rewrite lookup_empty, is_Some_alt. unfold newPids.
  rewrite list_elem_of_filter. split.
  - intros [[]|[[[k Hk]%list_elem_of_lookup Hne]|[_ ?]]]; [|done].
    by apply placed_entry in Hk as [?|[? _]].
  - intros Hp. destruct (old !! p) as [s|] eqn:Hs; [|by right; right].
    right; left.
    assert (p ≠ "") as Hne.
    { intros ->. rewrite He in Hs; [done|done]. }
    split; [|done]. apply list_elem_of_lookup. exists (Z.to_nat s).
    apply place_lookup_retained; [apply retained_slot_in_range|done..].
Qed.

(** The [k]-th new pid takes the [k]-th empty place. *)
Lemma slotted_new k pid :
  NoDup ps →
  newPids old ps !! k = Some pid →
  ∃ e, free_slots (placed old ps c) 0 !! k = Some e ∧
       slotted old ps c !! pid = Some (Z.of_nat e).
Proof using capacity_nonneg retained_in_range fits.
  intros Hnd Hk.
  destruct (lookup_lt_is_Some_2 (free_slots (placed old ps c) 0) k) as [e He].
  { apply lookup_lt_Some in Hk.
    pose proof (free_slots_enough old ps c fits). lia. }
  exists e. split; [done|]. unfold slotted.
  apply (scan_lookup_new _ _ _ _ _ k); [done..| |].
  - intros [k' Hk']%list_elem_of_lookup.
    apply placed_entry in Hk' as [?|[_ Hs]]; [done|].
    apply list_elem_of_lookup_2, list_elem_of_filter in Hk as [Hnone _].
    congruence.
  - rewrite drop_0. by apply NoDup_filter.
Qed.

Lemma free_is_empty k e :
  free_slots (placed old ps c) 0 !! k = Some e →
  placed old ps c !! e = Some "".
Proof.
  intros H. by apply list_elem_of_lookup_2, elem_of_free_slots in H
    as (k' & -> & H).
Qed.

(** Handing out slot [s] to one of the first [k] new pids is the same as
    [s] being one of the first [k] empty places. *)
Lemma given_lookup k s :
  NoDup ps →
  given (slotted old ps c) (newPids old ps) k (Z.of_nat s) ↔
  ∃ k', (k' < k)%nat ∧ (k' < length (newPids old ps))%nat ∧
        free_slots (placed old ps c) 0 !! k' = Some s.
Proof using capacity_nonneg retained_in_range fits.
  intros Hnd. split.
  - intros (k' & q & Hlt & Hq & Hs). exists k'.
    destruct (slotted_new k' q Hnd Hq) as (e & He & Hs').
    rewrite Hs in Hs'. injection Hs' as ->%Nat2Z.inj.
    by apply lookup_lt_Some in Hq.
  - intros (k' & Hlt & Hlen & He).
    destruct (lookup_lt_is_Some_2 (newPids old ps) k' Hlen) as [q Hq].
    exists k', q. split_and!; [done..|].
    destruct (slotted_new k' q Hnd Hq) as (e & He' & Hs').
    by simplify_eq.
Qed.

Lemma slotted_new_lowest k pid :
  NoDup ps → empty_not_retained old ps →
  newPids old ps !! k = Some pid →
  ∃ s, slotted old ps c !! pid = Some s ∧
       lowest_free c old ps (slotted old ps c) (newPids old ps) k s.
Proof using capacity_nonneg retained_in_range fits.
  intros Hnd Hempty_new Hk.
  destruct (slotted_new k pid Hnd Hk) as (e & He & Hs).
  exists (Z.of_nat e). split; [done|].
  pose proof (free_is_empty k e He) as Hempty.
  pose proof (lookup_lt_Some _ _ _ Hempty) as Hlt_e.
  pose proof length_placed as Hlen.
  unfold lowest_free. split; [|split; [|split]].
  - lia.
  - intros (q & Hq & Hs').
    destruct (place_lookup_held old ps (replicate (Z.to_nat c) "")
                (Z.of_nat e) q retained_slot_in_range Hq Hs') as (q' & Hq' & Hs'' & Hf).
    rewrite Nat2Z.id in Hf. fold (placed old ps c) in Hf. simplify_eq.
    by rewrite Hempty_new in Hs''.
  - intros (k' & Hlt & _ & He')%given_lookup; [|done].
    by apply Nat.lt_irrefl with e, (free_slots_lt (placed old ps c) 0 k' k).
  - intros s' Hs'.
    destruct (lookup_lt_is_Some_2 (placed old ps c) (Z.to_nat s')) as [x Hx];
      [lia|].
    destruct (decide (x = "")) as [->|Hne].
    + right. rewrite <-(Z2Nat.id s') by lia. apply given_lookup; [done|].
      assert (Z.to_nat s' ∈ free_slots (placed old ps c) 0)
        as [k' Hk']%list_elem_of_lookup.
      { apply elem_of_free_slots. by exists (Z.to_nat s'). }
      exists k'.
      assert (k' < k)%nat as Hlt.
      { destruct (decide (k' < k)%nat) as [|Hge]; [done|].
        destruct (decide (k' = k)) as [->|]; [simplify_eq; lia|].
        assert (k < k')%nat as Hlt by lia.
        pose proof (free_slots_lt _ _ _ _ _ _ He Hk' Hlt). lia. }
      split_and!; [done| |done]. apply lookup_lt_Some in Hk. lia.
    + left. exists x.
      apply placed_entry in Hx as [?|[Hx Hsx]]; [done|].
      by rewrite Z2Nat.id in Hsx by lia.
Qed.

End slotted.

(** The last pid of the list that is stored at a slot is the one [found]
    holds there. *)
Lemma place_last_writer old before pid after found s :
  (∀ p s, p ∈ before ++ pid :: after → old !! p = Some s →
          0 ≤ s < Z.of_nat (length found)) →
  old !! pid = Some s →
  (∀ q, q ∈ after → old !! q = Some s → q = pid) →
  place old (before ++ pid :: after) found !! Z.to_nat s = Some pid.
Proof.
  intros Hb Hs. induction after as [|x after IH] using rev_ind; intros Hlast.
  - rewrite place_snoc. unfold place_step. rewrite Hs.
    apply list_lookup_insert_eq. rewrite length_place.
    specialize (Hb pid s). rewrite elem_of_app, elem_of_cons in Hb.
    specialize (Hb ltac:(auto) Hs). lia.
  - assert (∀ p, p ∈ before ++ pid :: after →
                 p ∈ before ++ pid :: after ++ [x]) as Hsub.
    { intros p. rewrite !elem_of_app, !elem_of_cons, elem_of_app. tauto. }
    rewrite app_comm_cons, app_assoc in Hb |- *.
    rewrite place_snoc. unfold place_step.
    assert (place old (before ++ pid :: after) found !! Z.to_nat s = Some pid)
      as Hprev.
    { apply IH.
      - intros p s' Hp. apply Hb. apply elem_of_app. by left.
      - intros q Hq. apply Hlast, elem_of_app. by left. }
    destruct (old !! x) as [id|] eqn:Ex; [|done].
    destruct (decide (id = s)) as [->|Hne].
    + rewrite (Hlast x) by (done || apply elem_of_app; right; by left).
      apply list_lookup_insert_eq. by apply lookup_lt_Some in Hprev.
    + rewrite list_lookup_insert_ne; [done|].
      assert (0 ≤ id < Z.of_nat (length found)) as Hid.
      { apply (Hb x); [|done]. apply elem_of_app. right. by left. }
      assert (0 ≤ s < Z.of_nat (length found)) as Hs'.
      { apply (Hb pid); [|done]. apply elem_of_app. left.
        apply elem_of_app. right. by left. }
      lia.
Qed.

Lemma slotted_last_writer old before pid after c s :
  0 ≤ c → retained_below c old (before ++ pid :: after) →
  (∀ q, q ∈ after → old !! q = Some s → q = pid) →
  pid ≠ "" → old !! pid = Some s →
  slotted old (before ++ pid :: after) c !! pid = Some s.
Proof.
  intros Hc Hb Hlast Hne Hs. unfold slotted.
  assert (∀ p s, p ∈ before ++ pid :: after → old !! p = Some s →
                 0 ≤ s < Z.of_nat (length (replicate (Z.to_nat c) "")))
    as Hr by by apply retained_slot_in_range.
  rewrite (scan_lookup_found _ _ _ _ _ (Z.to_nat s) pid).
  - simpl. rewrite Z2Nat.id; [done|].
    apply (Hr pid); [|done]. apply elem_of_app. right. by left.
  - by apply place_last_writer.
  - done.
  - intros k' [?|[_ Hk']]%placed_entry; [done| |done..].
    rewrite Hs in Hk'. injection Hk' as ->. by rewrite Nat2Z.id.
  - rewrite drop_0. unfold newPids.
    intros [Hnone _]%list_elem_of_filter. congruence.
Qed.

(** ** Continuity *)

Lemma firstN_nonempty (processes : list Process) c :
  firstN processes c ≠ [] → 0 < c.
Proof.
  unfold firstN. intros H. destruct (decide (0 < c)) as [|Hc]; [done|].
  exfalso. apply H. replace (Z.to_nat _) with 0%nat by lia. done.
Qed.

(** C1, as amended.  Whenever the call returns, a pid that has an entry in
    the old map and appears among the first [min(|P|, c)] elements of [P]
    keeps its slot, provided it is not the empty string and no other pid
    later among those elements has the same slot in the old map. *)
Theorem updateProcesses_continuity old processes c pid s before after updated :
  pids (firstN processes c) = before ++ pid :: after →
  (∀ q, q ∈ after → old !! q = Some s → q = pid) →
  pid ≠ "" →
  old !! pid = Some s →
  updateProcesses old processes c = Ok updated →
  updated !! pid = Some s.
Proof.
  intros Hsplit Hlast Hne Hs (Hc & Hb & ->)%updateProcesses_inv.
  rewrite truncate_firstN, Hsplit in * by done.
  by apply slotted_last_writer.
Qed.

Lemma updateProcesses_continuity_witness :
  let old : gmap string Z := <["a" := 0]> (<["b" := 0]> (<["c" := 1]> ∅)) in
  let processes := [proc "a"; proc "b"; proc "c"; proc "d"] in
  updateProcesses old processes 3 = Ok (<["b" := 0]> (<["c" := 1]> ∅)) ∧
  (<["b" := 0]> (<["c" := 1]> ∅) : gmap string Z) !! "b" = Some 0.
Proof.
  intros old processes.
  assert (updateProcesses old processes 3 = Ok (<["b" := 0]> (<["c" := 1]> ∅)))
    as Hcall by by vm_compute.
  split; [exact Hcall|].
  apply (updateProcesses_continuity old processes 3 "b" 0 ["a"] ["c"]);
    [by vm_compute| |done|done|exact Hcall].
  intros q ->%list_elem_of_singleton. by vm_compute.
Defined.

(** C1 as worded fails on calls that do return: when two retained pids
    share a slot the earlier one is overwritten in [found], and a retained
    empty pid is indistinguishable from an empty place. *)
Lemma updateProcesses_continuity_counterexample :
  (updateProcesses (<["a" := 0]> (<["b" := 0]> ∅)) [proc "a"; proc "b"] 2
   = Ok (<["b" := 0]> ∅) ∧
   ¬ continuity_claim (<["a" := 0]> (<["b" := 0]> ∅)) [proc "a"; proc "b"] 2) ∧
  (updateProcesses (<["" := 0]> ∅) [proc ""] 1 = Ok ∅ ∧
   ¬ continuity_claim (<["" := 0]> ∅) [proc ""] 1).
Proof.
  split; (split; [by vm_compute|]); intros H.
  - specialize (H "a" 0 (<["b" := 0]> ∅)).
    assert (<["b" := 0]> (∅ : gmap string Z) !! "a" = Some 0) as E.
    { apply H; [done|compute_done|by vm_compute]. }
    by vm_compute in E.
  - specialize (H "" 0 ∅).
    assert ((∅ : gmap string Z) !! "" = Some 0) as E.
    { apply H; [done|compute_done|by vm_compute]. }
    by vm_compute in E.
Qed.

(** ** Slot cardinality *)

Lemma NoDup_pids_truncate processes c :
  NoDup (pids processes) → NoDup (pids (truncate processes c)).
Proof.
  unfold truncate. case_decide; [|done]. unfold pids. rewrite fmap_take.
  intros Hnd. eapply sublist_NoDup; [done|apply sublist_take].
Qed.

(** C3, as amended.  For distinct pids, when the old slots of the first
    [min(|P|, c)] pids are pairwise different and the empty string is not a
    retained pid, every map the call returns has exactly [min(|P|, c)]
    entries and its keys are exactly those pids. *)
Theorem updateProcesses_cardinality old processes c updated :
  NoDup (pids processes) →
  retained_distinct old (pids (firstN processes c)) →
  empty_not_retained old (pids (firstN processes c)) →
  updateProcesses old processes c = Ok updated →
  Z.of_nat (size updated) = Z.min (Z.of_nat (length processes)) c ∧
  dom updated = list_to_set (pids (firstN processes c)).
Proof.
  intros Hnd Hd He (Hc & Hb & ->)%updateProcesses_inv.
  rewrite <-length_firstN by done.
  rewrite <-truncate_firstN in * by done.
  assert (dom (slotted old (pids (truncate processes c)) c)
          = list_to_set (pids (truncate processes c))) as Hdom.
  { apply set_eq. intros p.
    rewrite elem_of_dom, elem_of_list_to_set.
    apply slotted_is_Some; [done..|by apply length_pids_truncate|done|done]. }
  split; [|done].
  rewrite <-size_dom, Hdom, size_list_to_set by by apply NoDup_pids_truncate.
  unfold pids. by rewrite length_fmap.
Qed.

Lemma updateProcesses_cardinality_witness :
  let updated : gmap string Z :=
    <["abc" := 0]> (<["def" := 1]> (<["hij" := 2]> ∅)) in
  Z.of_nat (size updated) = Z.min 4 3 ∧
  dom updated = list_to_set ["abc"; "def"; "hij"].
Proof.
  intros updated.
  apply (updateProcesses_cardinality
           (<["abc" := 0]> (<["def" := 1]> (<["xyz" := 2]> ∅)))
           [proc "abc"; proc "def"; proc "hij"; proc "klm"] 3);
    [compute_done..|by vm_compute].
Defined.

(** C3 as worded fails: two retained pids sharing a slot leave one entry
    for two pids, and a retained empty pid leaves none. *)
Lemma updateProcesses_cardinality_counterexample :
  (updateProcesses (<["a" := 0]> (<["b" := 0]> ∅)) [proc "a"; proc "b"] 2
   = Ok (<["b" := 0]> ∅) ∧
   ¬ cardinality_claim (<["a" := 0]> (<["b" := 0]> ∅)) [proc "a"; proc "b"] 2) ∧
  (updateProcesses (<["" := 0]> ∅) [proc ""] 1 = Ok ∅ ∧
   ¬ cardinality_claim (<["" := 0]> ∅) [proc ""] 1).
Proof.
  split; (split; [by vm_compute|]); intros H.
  - destruct (H ltac:(compute_done) (<["b" := 0]> ∅)) as [E _]; [by vm_compute|].
    by vm_compute in E.
  - destruct (H ltac:(compute_done) ∅) as [E _]; [by vm_compute|].
    by vm_compute in E.
Qed.

(** ** Injectivity *)

Lemma slots_below_retained c old ps : slots_below c old → retained_below c old ps.
Proof. intros H. apply retained_below_spec. intros p s _ Hs. by apply (H p s). Qed.

(** C9.  From an injective old map with slots in [[0, c)] and distinct
    pids, every map the call returns is injective. *)
Theorem updateProcesses_injective old processes c :
  injective old → slots_below c old → NoDup (pids processes) →
  ∀ updated, updateProcesses old processes c = Ok updated → injective updated.
Proof.
  intros _ _ _ updated (Hc & _ & ->)%updateProcesses_inv.
  by apply slotted_injective.
Qed.

Lemma updateProcesses_injective_witness :
  injective (<["cdf" := 1]> (<["xyz" := 0]> ∅) : gmap string Z).
Proof.
  apply (updateProcesses_injective (<["abc" := 0]> (<["cdf" := 1]> ∅))
           [proc "cdf"; proc "xyz"] 2);
    [|compute_done|compute_done|by vm_compute].
  intros p q s. rewrite !lookup_insert_Some, lookup_empty. naive_solver.
Defined.

(** ** Idempotence *)

Lemma truncate_fits processes c :
  Z.of_nat (length processes) ≤ c → truncate processes c = processes.
Proof. intros H. unfold truncate. by rewrite decide_False by lia. Qed.

Lemma injective_retained_distinct m ps : injective m → retained_distinct m ps.
Proof.
  intros Hinj. apply retained_distinct_spec. intros p q s _ _. apply Hinj.
Qed.

(** C2, as amended.  With distinct, non-empty pids that fit the capacity,
    and an old map whose slots for these pids are pairwise different, on
    every map the call returns a second call with the same list returns the
    same map. *)
Theorem updateProcesses_idempotent old processes c updated :
  NoDup (pids processes) →
  Z.of_nat (length processes) ≤ c →
  "" ∉ pids processes →
  retained_distinct old (pids processes) →
  updateProcesses old processes c = Ok updated →
  updateProcesses updated processes c = Ok updated.
Proof.
  intros Hnd Hlen Hne Hd Hcall.
  pose proof (updateProcesses_inv_alloc _ _ _ _ Hcall) as [_ Halloc].
  apply updateProcesses_inv in Hcall as (Hc & Hb & ->).
  assert (length (pids processes) ≤ Z.to_nat c)%nat as Hfits.
  { unfold pids. rewrite length_fmap. lia. }
  pose proof (truncate_fits processes c Hlen) as Htr. rewrite Htr in Hb.
  set (ps := pids processes) in *.
  destruct (slotted_injective old ps c Hc) as [Hinj Hbelow].
  rewrite updateProcesses_Ok
    by (rewrite ?Htr; done || by apply slots_below_retained).
  rewrite Htr. fold ps.
  f_equal. apply map_eq. intros p.
  destruct (decide (p ∈ ps)) as [Hp|Hp].
  - destruct (proj2 (slotted_is_Some old ps c Hc Hb Hfits p Hd
                       ltac:(by intros ?)) Hp) as [s Hs].
    rewrite Hs. apply slotted_retained; [done| | |by intros -> |done..].
    + by apply slots_below_retained.
    + intros q _ Hq. by apply (Hinj q p s).
  - assert (∀ m : gmap string Z, ¬ is_Some (m !! p) → m !! p = None) as Hnone.
    { intros m. by rewrite eq_None_not_Some. }
    rewrite !Hnone; [done|..].
    + by rewrite slotted_is_Some by (done || by intros ?).
    + rewrite slotted_is_Some;
        [done|done|by apply slots_below_retained|done
        |by apply injective_retained_distinct|by intros ?].
Qed.

Lemma updateProcesses_idempotent_witness :
  let updated : gmap string Z :=
    <["cdf" := 1]> (<["dfe" := 2]> (<["xyz" := 0]> ∅)) in
  updateProcesses updated [proc "cdf"; proc "dfe"; proc "xyz"] 3 = Ok updated.
Proof.
  intros updated.
  apply (updateProcesses_idempotent
           (<["abc" := 0]> (<["cdf" := 1]> (<["dfe" := 2]> ∅))));
    [compute_done|simpl; lia|compute_done|compute_done|by vm_compute].
Defined.

(** C2 as worded fails.  With two retained pids on one slot the first call
    drops one of them and the second call brings it back as a new pid; and
    an empty pid is placed by the first call and lost by the second. *)
Lemma updateProcesses_idempotent_counterexample :
  (updateProcesses (<["a" := 0]> (<["b" := 0]> ∅)) [proc "a"; proc "b"] 2
   = Ok (<["b" := 0]> ∅) ∧
   updateProcesses (<["b" := 0]> ∅) [proc "a"; proc "b"] 2
   = Ok (<["a" := 1]> (<["b" := 0]> ∅)) ∧
   ¬ idempotence_claim (<["a" := 0]> (<["b" := 0]> ∅)) [proc "a"; proc "b"] 2) ∧
  (updateProcesses ∅ [proc ""] 1 = Ok (<["" := 0]> ∅) ∧
   updateProcesses (<["" := 0]> ∅) [proc ""] 1 = Ok ∅ ∧
   ¬ idempotence_claim ∅ [proc ""] 1).
Proof.
  split; (split; [by vm_compute|]); (split; [by vm_compute|]); intros H.
  - specialize (H ltac:(compute_done) ltac:(simpl; lia)). by vm_compute in H.
  - specialize (H ltac:(compute_done) ltac:(simpl; lia)). by vm_compute in H.
Qed.

(** ** Slots of the new pids *)

(** C4, as amended.  With distinct pids that fit the capacity and no
    retained empty pid, in every map the call returns each new pid has the
    lowest slot of [[0, c)] that no retained pid holds and no earlier new
    pid was given; and the insertion scenario of the specification gives
    the stated map. *)
Theorem updateProcesses_new_pid_slots old processes c :
  slots_below c old →
  NoDup (pids processes) →
  Z.of_nat (length processes) ≤ c →
  empty_not_retained old (pids processes) →
  (∀ updated,
    updateProcesses old processes c = Ok updated →
    ∀ k pid, newPids old (pids processes) !! k = Some pid →
      ∃ s, updated !! pid = Some s ∧
           lowest_free c old (pids processes) updated
             (newPids old (pids processes)) k s) ∧
  updateProcesses
    (<["abc" := 0]> (<["cdf" := 1]> (<["dfe" := 2]> (<["efg" := 3]> ∅))))
    [proc "abc"; proc "dfe"; proc "newPID"; proc "newPID2"] 6
  = Ok (<["abc" := 0]> (<["dfe" := 2]> (<["newPID" := 1]> (<["newPID2" := 3]> ∅)))).
Proof.
  intros Hb Hnd Hlen He. split; [|by vm_compute].
  intros updated (Hc & _ & ->)%updateProcesses_inv.
  pose proof (slots_below_retained c old (pids processes) Hb) as Hr.
  rewrite truncate_fits by done.
  intros k pid Hk. apply slotted_new_lowest; [done|done| |done..].
  unfold pids. rewrite length_fmap. lia.
Qed.

Lemma updateProcesses_new_pid_slots_witness :
  let old : gmap string Z := <["abc" := 0]> (<["cdf" := 1]> (<["dfe" := 2]> ∅)) in
  let processes := [proc "cdf"; proc "new1"; proc "new2"] in
  let updated : gmap string Z :=
    <["cdf" := 1]> (<["new1" := 0]> (<["new2" := 2]> ∅)) in
  (∃ s, updated !! "new2" = Some s ∧
        lowest_free 4 old (pids processes) updated
          (newPids old (pids processes)) 1 s) ∧
  updateProcesses
    (<["abc" := 0]> (<["cdf" := 1]> (<["dfe" := 2]> (<["efg" := 3]> ∅))))
    [proc "abc"; proc "dfe"; proc "newPID"; proc "newPID2"] 6
  = Ok (<["abc" := 0]> (<["dfe" := 2]> (<["newPID" := 1]> (<["newPID2" := 3]> ∅)))).
Proof.
  intros old processes updated.
  destruct (updateProcesses_new_pid_slots old processes 4)
    as [Hnew Hscenario];
    [compute_done|compute_done|simpl; lia|compute_done|].
  split; [|exact Hscenario].
  apply (Hnew updated ltac:(by vm_compute) 1%nat "new2"). by vm_compute.
Defined.

(** C4 as worded fails when the empty string is a retained pid: its place
    in [found] reads as empty and the new pid takes the slot it holds. *)
Lemma updateProcesses_new_pid_slots_counterexample :
  updateProcesses (<["" := 0]> ∅) [proc ""; proc "x"] 2 = Ok (<["x" := 0]> ∅) ∧
  held (<["" := 0]> ∅) (pids [proc ""; proc "x"]) 0 ∧
  ¬ assignment_claim (<["" := 0]> ∅) [proc ""; proc "x"] 2.
Proof.
  split; [by vm_compute|].
  assert (held (<["" := 0]> ∅) (pids [proc ""; proc "x"]) 0) as Hheld.
  { exists "". split; [compute_done|done]. }
  split; [done|]. intros H.
  destruct (H ltac:(compute_done) ltac:(compute_done)
              ltac:(simpl; lia) (<["x" := 0]> ∅) ltac:(by vm_compute) 0%nat "x"
              ltac:(by vm_compute)) as (s & Hs & _ & Hfree & _).
  vm_compute in Hs. injection Hs as <-. by apply Hfree.
Qed.

(** ** Stale slots beyond the capacity *)

(** A retained pid whose old slot is not a place of [found] makes the
    first loop panic, whatever else the arguments are. *)
Lemma updateProcesses_panics old processes c pid s :
  pid ∈ pids (truncate processes c) → old !! pid = Some s →
  ¬ (0 ≤ s < c) →
  ∃ p, updateProcesses old processes c = Panic p.
Proof.
  intros Hp Hs Hout.
  destruct (updateProcesses old processes c) as [updated|p] eqn:E; [|by eexists].
  apply updateProcesses_inv in E as (_ & Hb & _).
  rewrite retained_below_spec in Hb. by destruct (Hout (Hb pid s Hp Hs)).
Qed.

(** Whenever the call returns, the overflow loop was not entered: the
    second loop has already placed every new pid. *)
Lemma overflow_not_entered old processes c found missing :
  0 ≤ c →
  classify old (truncate processes c) (replicate (Z.to_nat c) "") []
  = Ok (found, missing) →
  (scan found 0 missing 0 ∅).2 = length missing.
Proof.
  intros Hc H. pose proof (classify_inv _ _ _ _ _ _ H) as Hb.
  rewrite classify_Ok in H by done. injection H as <- <-. simpl.
  apply (scan_consumes_all old _ c). by apply length_pids_truncate.
Qed.

(** C5 (the code departs from the claim).  The pool shrank from four to
    three processes and the surviving process held slot 3: [found] has
    three places, and the store [found[3] = "efg"] is out of range. *)
Theorem updateProcesses_stale_slot_panics :
  updateProcesses
    (<["abc" := 0]> (<["cdf" := 1]> (<["dfe" := 2]> (<["efg" := 3]> ∅))))
    [proc "efg"] 3
  = Panic (IndexOutOfRange 3 3).
Proof. by vm_compute. Qed.

(** ** The collector *)

Lemma send_Ok d vt v labels s :
  length labels = length (variableLabels d) →
  send d vt v labels s
  = Ok {| ch := ch s ++ [{| desc := d; valueType := vt; value := v;
                           labelValues := labels |}];
          processIdentifiers := processIdentifiers s;
          errlog := errlog s |}.
Proof. intros H. unfold send, MustNewConstMetric. by rewrite decide_True. Qed.

(** C6.  When [status] fails, [Collect] sends the [up] gauge with value 0
    and nothing else, logs the error, and leaves [processIdentifiers] as it
    was. *)
Theorem Collect_failure_path err s :
  Collect (inl err) s
  = Ok {| ch := ch s ++ [{| desc := up; valueType := GaugeValue; value := 0;
                           labelValues := [] |}];
          processIdentifiers := processIdentifiers s;
          errlog := errlog s ++ [err] |}.
Proof. unfold Collect. by rewrite send_Ok. Qed.

Lemma collectProcess_Some name proc slot s :
  processIdentifiers s !! PID proc = Some slot →
  collectProcess name proc s
  = Ok {| ch := ch s ++ processMetrics name slot proc;
          processIdentifiers := processIdentifiers s;
          errlog := errlog s |}.
Proof.
  intros H. unfold collectProcess. rewrite H.
  repeat (rewrite send_Ok by done; simpl). by rewrite <-!app_assoc.
Qed.

Lemma collectProcess_None name proc s :
  processIdentifiers s !! PID proc = None → collectProcess name proc s = Ok s.
Proof. intros H. unfold collectProcess. by rewrite H. Qed.

Lemma collectProcesses_Ok name procs s :
  for_range (collectProcess name) procs s
  = Ok {| ch := ch s ++ concat (translateProcess name (processIdentifiers s) <$> procs);
          processIdentifiers := processIdentifiers s;
          errlog := errlog s |}.
Proof.
  revert s. induction procs as [|proc procs IH]; intros s; simpl.
  - rewrite app_nil_r. by destruct s.
  - unfold translateProcess at 1.
    destruct (processIdentifiers s !! PID proc) as [slot|] eqn:E.
    + rewrite (collectProcess_Some _ _ slot) by done. simpl.
      rewrite IH. simpl. by rewrite <-app_assoc.
    + rewrite collectProcess_None by done. simpl. apply IH.
Qed.

(** C8.  The translation of the processes of a group never fails, for any
    map: a process whose pid has an entry yields its three measurements,
    labelled with the group name and the slot; a process whose pid has none
    yields nothing; and the loop sends these, process by process, skipping
    the pids without an entry. *)
Theorem Collect_translation_total name procs s :
  (∀ proc slot, processIdentifiers s !! PID proc = Some slot →
     collectProcess name proc s
     = Ok {| ch := ch s ++ processMetrics name slot proc;
             processIdentifiers := processIdentifiers s;
             errlog := errlog s |}) ∧
  (∀ proc, processIdentifiers s !! PID proc = None →
     collectProcess name proc s = Ok s) ∧
  for_range (collectProcess name) procs s
  = Ok {| ch := ch s ++ concat (translateProcess name (processIdentifiers s) <$> procs);
          processIdentifiers := processIdentifiers s;
          errlog := errlog s |}.
Proof.
  split_and!.
  - intros proc slot. apply collectProcess_Some.
  - intros proc. apply collectProcess_None.
  - apply collectProcesses_Ok.
Qed.

Lemma Collect_translation_total_witness :
  let s := {| ch := []; processIdentifiers := <["abc" := 2]> ∅; errlog := [] |} in
  let p := {| PID := "abc"; RequestsProcessed := 7;
              SpawnStartTime := 1500000; RealMemory := 4096 |} in
  let metrics :=
    [ {| desc := procMemory; valueType := GaugeValue; value := 4096;
         labelValues := ["app"; "2"] |};
      {| desc := requestsProcessed; valueType := CounterValue; value := 7;
         labelValues := ["app"; "2"] |};
      {| desc := procStartTime; valueType := GaugeValue; value := 1;
         labelValues := ["app"; "2"] |} ] in
  collectProcess "app" p s
  = Ok {| ch := metrics; processIdentifiers := processIdentifiers s;
          errlog := [] |} ∧
  collectProcess "app" (proc "gone") s = Ok s ∧
  for_range (collectProcess "app") [proc "gone"; p] s
  = Ok {| ch := metrics; processIdentifiers := processIdentifiers s;
          errlog := [] |}.
Proof.
  intros s p metrics.
  destruct (Collect_translation_total "app" [proc "gone"; p] s) as (H1 & H2 & H3).
  split_and!.
  - by rewrite (H1 p 2).
  - by rewrite (H2 (proc "gone")).
  - rewrite H3. reflexivity.
Defined.

Lemma collectSuperGroup_ids max sg s :
  collectSuperGroup max sg s ≫= (λ s', Ok (processIdentifiers s'))
  = updateProcesses (processIdentifiers s) (Processes (SGroup sg)) max.
Proof.
  unfold collectSuperGroup. repeat (rewrite send_Ok by done; simpl).
  destruct (updateProcesses _ _ _) as [ids|p]; [|done]. simpl.
  by rewrite collectProcesses_Ok.
Qed.

Lemma collectSuperGroups_ids max sgs s :
  for_range (collectSuperGroup max) sgs s ≫= (λ s', Ok (processIdentifiers s'))
  = updateEach max sgs (processIdentifiers s).
Proof.
  revert s. induction sgs as [|sg sgs IH]; intros s; simpl; [done|].
  rewrite <-collectSuperGroup_ids.
  destruct (collectSuperGroup max sg s) as [s'|p]; [|done]. simpl.
  apply IH.
Qed.

(** C7 (the code departs from the claim).  [Collect] calls
    [updateProcesses] inside the loop over the supergroups, on the one
    global map and with the processes of one supergroup at a time.  With
    the supergroups one = [a, b] and two = [c] and a maximum of 4, the call
    for two drops the pids of one, so the poll ends with [{c:0}]; on the
    next poll, where d has replaced a, the call for one finds none of its
    pids and b, sent under slot 1 before, is sent under slot 0.  One call
    per poll on the flattened list, as the claim describes it, gives every
    pid an entry and leaves b at slot 1. *)
Theorem Collect_groups_share_one_map :
  let b := {| PID := "b"; RequestsProcessed := 7;
              SpawnStartTime := 5000000; RealMemory := 512 |} in
  let group name processes :=
    {| Name := name;
       SGroup := {| RequestQueueSize := 0; ProcessesSpawning := 0;
                    Processes := processes |} |} in
  let snapshot groups :=
    {| PassengerVersion := "6.0.17"; AppGroupCount := 2;
       CurrentProcessCount := 3; MaxProcessCount := 4;
       TopLevelRequestQueueSize := 0; SuperGroups := groups |} in
  let poll1 := snapshot [group "one" [proc "a"; b]; group "two" [proc "c"]] in
  let poll2 := snapshot [group "one" [b; proc "d"]; group "two" [proc "c"]] in
  let start ids := {| ch := []; processIdentifiers := ids; errlog := [] |} in
  (∃ s1 s2,
     Collect (inr poll1) (start ∅) = Ok s1 ∧
     processIdentifiers s1 = <["c" := 0]> ∅ ∧
     (∀ m, m ∈ processMetrics "one" 1 b → m ∈ ch s1) ∧
     Collect (inr poll2) (start (processIdentifiers s1)) = Ok s2 ∧
     processIdentifiers s2 = <["c" := 0]> ∅ ∧
     (∀ m, m ∈ processMetrics "one" 0 b → m ∈ ch s2)) ∧
  (updateProcesses ∅ [proc "a"; b] 4 = Ok (<["a" := 0]> (<["b" := 1]> ∅)) ∧
   updateProcesses (<["a" := 0]> (<["b" := 1]> ∅)) [proc "c"] 4
   = Ok (<["c" := 0]> ∅) ∧
   updateProcesses (<["c" := 0]> ∅) [b; proc "d"] 4
   = Ok (<["b" := 0]> (<["d" := 1]> ∅))) ∧
  (updateProcesses ∅ (flattened poll1) 4
   = Ok (<["a" := 0]> (<["b" := 1]> (<["c" := 2]> ∅))) ∧
   updateProcesses (<["a" := 0]> (<["b" := 1]> (<["c" := 2]> ∅)))
     (flattened poll2) 4
   = Ok (<["b" := 1]> (<["c" := 2]> (<["d" := 0]> ∅)))) ∧
  ¬ single_update_claim poll1 (start ∅).
Proof.
  intros b group snapshot poll1 poll2 start.
  assert (∃ s1, Collect (inr poll1) (start ∅) = Ok s1 ∧
                processIdentifiers s1 = <["c" := 0]> ∅ ∧
                ∀ m, m ∈ processMetrics "one" 1 b → m ∈ ch s1)
    as (s1 & E1 & Hids1 & Hsent1).
  { destruct (Collect (inr poll1) (start ∅)) as [s1|p] eqn:E;
      [|vm_compute in E; discriminate E].
    exists s1. split; [reflexivity|].
    vm_compute in E. injection E as <-.
    split; [vm_compute; reflexivity|].
    intros m Hm. vm_compute in Hm |- *.
    repeat (apply elem_of_cons in Hm as [->|Hm];
            [repeat first [left|right]|]).
    apply elem_of_nil in Hm. destruct Hm. }
  assert (∃ s2, Collect (inr poll2) (start (<["c" := 0]> ∅)) = Ok s2 ∧
                processIdentifiers s2 = <["c" := 0]> ∅ ∧
                ∀ m, m ∈ processMetrics "one" 0 b → m ∈ ch s2)
    as (s2 & E2 & Hids2 & Hsent2).
  { clear E1.
    destruct (Collect (inr poll2) (start (<["c" := 0]> ∅))) as [s2|p] eqn:E;
      [|vm_compute in E; discriminate E].
    exists s2. split; [reflexivity|].
    vm_compute in E. injection E as <-.
    split; [vm_compute; reflexivity|].
    intros m Hm. vm_compute in Hm |- *.
    repeat (apply elem_of_cons in Hm as [->|Hm];
            [repeat first [left|right]|]).
    apply elem_of_nil in Hm. destruct Hm. }
  split; [|split; [|split]].
  - exists s1, s2. rewrite Hids1.
    split; [exact E1|]. split; [reflexivity|]. split; [exact Hsent1|].
    split; [exact E2|]. split; [exact Hids2|exact Hsent2].
  - split; [|split]; vm_compute; reflexivity.
  - split; vm_compute; reflexivity.
  - intros H. destruct (H s1 E1) as [Hflat _].
    rewrite Hids1 in Hflat. vm_compute in Hflat. discriminate Hflat.
Qed.

(** ** The store of map objects *)

Lemma ref_classify h old m processes found missing :
  h !! old = Some m →
  Ref.classify old processes found missing h
  = (classify m processes found missing, h).
Proof.
  intros Hold. revert found missing.
  induction processes as [|p processes IH]; intros found missing; simpl; [done|].
  unfold Ref.bind, Ref.map_lookup. rewrite Hold. simpl.
  destruct (m !! PID p) as [id|]; [|apply IH].
  unfold Ref.lift. destruct (slice_store found id (PID p)); [apply IH|done].
Qed.

Lemma ref_map_store h m key v :
  Ref.map_store (length h) key v (h ++ [m]) = (Ok (), h ++ [<[key := v]> m]).
Proof.
  unfold Ref.map_store. f_equal.
  rewrite alter_app_r_alt by done. by rewrite Nat.sub_diag.
Qed.

Lemma ref_scan h m found i missing j :
  Ref.scan (length h) found i missing j (h ++ [m])
  = (Ok (scan found i missing j m).2, h ++ [(scan found i missing j m).1]).
Proof.
  revert i j m. induction found as [|pid found IH]; intros i j m; simpl; [done|].
  case_decide.
  - destruct (missing !! j) as [q|]; [|apply IH].
    unfold Ref.bind. rewrite ref_map_store. apply IH.
  - unfold Ref.bind. rewrite ref_map_store. apply IH.
Qed.

Lemma ref_overflow h m rest count i :
  Ref.overflow (length h) rest count i (h ++ [m])
  = (Ok (), h ++ [overflow rest count i m]).
Proof.
  revert i m. induction rest as [|pid rest IH]; intros i m; simpl; [done|].
  unfold Ref.bind. rewrite ref_map_store. apply IH.
Qed.

(** The call allocates one map object, reads [old] and writes only the new
    object; what it leaves there is what [updateProcesses] computes from
    the content of [old]. *)
Lemma ref_updateProcesses h old m processes c :
  h !! old = Some m →
  Ref.updateProcesses old processes c h
  = match updateProcesses m processes c with
    | Ok updated => (Ok (length h), h ++ [updated])
    | Panic p => (Panic p, h ++ [∅])
    end.
Proof.
  intros Hold. unfold Ref.updateProcesses, updateProcesses.
  unfold Ref.bind at 1. unfold Ref.make_map.
  unfold Ref.bind at 1. unfold Ref.lift.
  destruct (make_strings c) as [found|p]; [|done]. simpl.
  unfold Ref.bind at 1.
  rewrite (ref_classify _ old m) by by apply lookup_app_l_Some.
  destruct (classify m _ found []) as [[found' missing]|p]; [|done]. simpl.
  unfold Ref.bind at 1. rewrite ref_scan.
  destruct (scan found' 0 missing 0 ∅) as [updated j]. simpl.
  unfold Ref.bind, Ref.ret. case_decide; [|done].
  by rewrite ref_overflow.
Qed.

(** C10.  A call on the map object [old] leaves that object, and every
    other object that existed before the call, as it was; the map it
    returns is a new object, holding what [updateProcesses] computes from
    the content of [old]. *)
Theorem updateProcesses_leaves_old_untouched h old m processes c :
  h !! old = Some m →
  ∃ r h', Ref.updateProcesses old processes c h = (r, h') ∧
    h' !! old = Some m ∧
    (∀ l m', h !! l = Some m' → h' !! l = Some m') ∧
    match r with
    | Ok new =>
        h !! new = None ∧
        ∃ updated, h' !! new = Some updated ∧
                   updateProcesses m processes c = Ok updated
    | Panic p => updateProcesses m processes c = Panic p
    end.
Proof.
  intros Hold. rewrite (ref_updateProcesses h old m) by done.
  destruct (updateProcesses m processes c) as [updated|p]; do 2 eexists;
    (split; [done|]).
  - split_and!.
    + by apply lookup_app_l_Some.
    + intros l m'. apply lookup_app_l_Some.
    + by apply lookup_ge_None_2.
    + exists updated. split; [|done]. by rewrite list_lookup_middle.
  - split_and!; [by apply lookup_app_l_Some| |done].
    intros l m'. apply lookup_app_l_Some.
Qed.

Lemma updateProcesses_leaves_old_untouched_witness :
  let m : gmap string Z := <["abc" := 0]> (<["cdf" := 1]> ∅) in
  ∃ r h', Ref.updateProcesses 0 [proc "cdf"; proc "xyz"] 2 [m] = (r, h') ∧
    h' !! 0%nat = Some m ∧
    (∀ l m', [m] !! l = Some m' → h' !! l = Some m') ∧
    match r with
    | Ok new =>
        [m] !! new = None ∧
        ∃ updated, h' !! new = Some updated ∧
                   updateProcesses m [proc "cdf"; proc "xyz"] 2 = Ok updated
    | Panic p => updateProcesses m [proc "cdf"; proc "xyz"] 2 = Panic p
    end.
Proof.
  intros m. by apply (updateProcesses_leaves_old_untouched [m] 0%nat m).
Defined.

(** * Further properties of [updateProcesses] *)

(** ** When the call returns, and how it fails *)

Lemma classify_Panic old processes found missing p :
  classify old processes found missing = Panic p →
  ∃ pid id, pid ∈ pids processes ∧ old !! pid = Some id ∧
            ¬ (0 ≤ id < Z.of_nat (length found)) ∧
            p = IndexOutOfRange id (Z.of_nat (length found)).
Proof.
  revert found missing.
  induction processes as [|x processes IH]; intros found missing; simpl; [done|].
  destruct (old !! PID x) as [id|] eqn:E.
  - unfold slice_store. case_decide as Hid; simpl.
    + intros (pid & id' & Hpid & Hs & Hout & ->)%IH.
      rewrite length_insert in Hout |- *.
      exists pid, id'. split_and!; [by right|done..].
    + intros [= <-]. exists (PID x), id. split_and!; [by left|done..].
  - intros (pid & id' & Hpid & Hs & Hout & ->)%IH.
    exists pid, id'. split_and!; [by right|done..].
Qed.

(** A panic of a call on a map whose slots lie below the capacity comes
    from the allocation of [found]. *)
Lemma updateProcesses_Panic_slots_below old processes c p :
  slots_below c old → updateProcesses old processes c = Panic p →
  p = MakesliceLenOutOfRange ∧ (c < 0 ∨ maxAlloc < stringSize * c).
Proof.
  intros Hb. unfold updateProcesses, make_strings. case_decide as Hc; simpl.
  - by intros [= <-].
  - destruct (classify _ _ _ _) as [[found missing]|p'] eqn:E; simpl.
    + destruct (scan found 0 missing 0 ∅) as [updated j]. intros [=].
    + intros [= ->].
      apply classify_Panic in E as (pid & id & _ & Hs & Hout & _).
      rewrite length_replicate, Z2Nat.id in Hout by lia.
      destruct Hout. by apply (Hb pid id).
Qed.

(** X1.  Whenever the call returns, the capacity is not negative, [found]
    is within the allocation limit, and every pid among the first
    [min(|P|, c)] processes that the old map knows has its old slot in
    [[0, c)]. *)
Theorem updateProcesses_returns_only_if old processes c updated :
  updateProcesses old processes c = Ok updated →
  0 ≤ c ∧ stringSize * c ≤ maxAlloc ∧
  retained_below c old (pids (firstN processes c)).
Proof.
  intros H. pose proof (updateProcesses_inv_alloc _ _ _ _ H) as [Hc Ha].
  apply updateProcesses_inv in H as (_ & Hb & _).
  by rewrite <-truncate_firstN.
Qed.

Lemma updateProcesses_returns_only_if_witness :
  0 ≤ 2 ∧ stringSize * 2 ≤ maxAlloc ∧
  retained_below 2 (<["abc" := 1]> (<["gone" := 5]> ∅))
    (pids (firstN [proc "abc"; proc "new"; proc "gone"] 2)).
Proof.
  apply (updateProcesses_returns_only_if _ _ _
           (<["abc" := 1]> (<["new" := 0]> ∅))).
  vm_compute. reflexivity.
Defined.

(** X2.  A panic of the call is either the allocation of [found], with a
    negative length or a length beyond the allocation limit, or the store
    of a retained pid at an old slot outside [found]; that panic names the
    slot and the capacity. *)
Theorem updateProcesses_panic_cause old processes c p :
  updateProcesses old processes c = Panic p →
  ((c < 0 ∨ maxAlloc < stringSize * c) ∧ p = MakesliceLenOutOfRange) ∨
  (0 ≤ c ∧ stringSize * c ≤ maxAlloc ∧
   ∃ pid id, pid ∈ pids (firstN processes c) ∧ old !! pid = Some id ∧
             ¬ (0 ≤ id < c) ∧ p = IndexOutOfRange id c).
Proof.
  unfold updateProcesses, make_strings. case_decide as Hc; simpl.
  - intros [= <-]. by left.
  - destruct (classify _ _ _ _) as [[found missing]|p'] eqn:E; simpl.
    + destruct (scan found 0 missing 0 ∅) as [updated j]. intros [=].
    + intros [= ->]. right. split; [lia|]. split; [lia|].
      apply classify_Panic in E as (pid & id & Hpid & Hs & Hout & ->).
      rewrite length_replicate, Z2Nat.id in * by lia.
      rewrite truncate_firstN in Hpid by lia. by exists pid, id.
Qed.

Lemma updateProcesses_panic_cause_witness :
  (((3 < 0 ∨ maxAlloc < stringSize * 3) ∧
    IndexOutOfRange 7 3 = MakesliceLenOutOfRange) ∨
   (0 ≤ 3 ∧ stringSize * 3 ≤ maxAlloc ∧ ∃ pid id,
      pid ∈ pids (firstN [proc "abc"; proc "efg"] 3) ∧
      (<["abc" := 0]> (<["efg" := 7]> ∅) : gmap string Z) !! pid = Some id ∧
      ¬ (0 ≤ id < 3) ∧ IndexOutOfRange 7 3 = IndexOutOfRange id 3)) ∧
  (((4611686018427387904 < 0 ∨ maxAlloc < stringSize * 4611686018427387904) ∧
    MakesliceLenOutOfRange = MakesliceLenOutOfRange) ∨
   (0 ≤ 4611686018427387904 ∧ stringSize * 4611686018427387904 ≤ maxAlloc ∧
    ∃ pid id,
      pid ∈ pids (firstN [proc "a"] 4611686018427387904) ∧
      (<["a" := 0]> ∅ : gmap string Z) !! pid = Some id ∧
      ¬ (0 ≤ id < 4611686018427387904) ∧
      MakesliceLenOutOfRange = IndexOutOfRange id 4611686018427387904)).
Proof.
  split.
  - apply (updateProcesses_panic_cause
             (<["abc" := 0]> (<["efg" := 7]> ∅)) [proc "abc"; proc "efg"] 3).
    vm_compute. reflexivity.
  - apply (updateProcesses_panic_cause
             (<["a" := 0]> ∅) [proc "a"] 4611686018427387904).
    vm_compute. reflexivity.
Defined.

(** ** What a returned map contains *)

Lemma slotted_keys old ps c p :
  0 ≤ c → retained_below c old ps → (length ps ≤ Z.to_nat c)%nat →
  is_Some (slotted old ps c !! p) → p ∈ ps.
Proof.
  intros Hc Hb Hfits. unfold slotted. rewrite scan_dom, drop_0.
  rewrite lookup_empty, is_Some_alt.
  intros [[]|[[[k Hk]%list_elem_of_lookup Hne]|Hp]].
  - by apply placed_entry in Hk as [?|[? _]].
  - apply subseteq_take in Hp. unfold newPids in Hp.
    by apply list_elem_of_filter in Hp as [_ ?].
Qed.

Lemma slotted_new_is_Some old ps c p :
  (length ps ≤ Z.to_nat c)%nat →
  p ∈ ps → old !! p = None → is_Some (slotted old ps c !! p).
Proof.
  intros Hfits Hp Hnone. unfold slotted. rewrite scan_dom, drop_0.
  right; right. rewrite take_ge by by apply free_slots_enough.
  unfold newPids. by apply list_elem_of_filter.
Qed.

(** X3.  Every slot of a returned map lies in [[0, c)]: the overflow loop
    never contributes, whatever the old map was. *)
Theorem updateProcesses_slots_bounded old processes c updated :
  updateProcesses old processes c = Ok updated → slots_below c updated.
Proof.
  intros (Hc & _ & ->)%updateProcesses_inv. by apply slotted_injective.
Qed.

Lemma updateProcesses_slots_bounded_witness :
  slots_below 2 (<["x" := 0]> (<["b" := 1]> ∅)).
Proof.
  apply (updateProcesses_slots_bounded
           (<["a" := 0]> (<["b" := 1]> ∅)) [proc "x"; proc "b"; proc "y"] 2).
  by vm_compute.
Defined.

(** X4.  The keys of a returned map are pids of the first [min(|P|, c)]
    processes: entries of the old map for other pids are dropped, and a
    process cut off by the truncation gets no entry of its own. *)
Theorem updateProcesses_keys old processes c updated pid s :
  updateProcesses old processes c = Ok updated →
  updated !! pid = Some s →
  pid ∈ pids (firstN processes c).
Proof.
  intros (Hc & Hb & ->)%updateProcesses_inv Hs.
  rewrite <-truncate_firstN by done.
  apply (slotted_keys old _ c); [done..|by apply length_pids_truncate|by eexists].
Qed.

Lemma updateProcesses_keys_witness :
  "b" ∈ pids (firstN [proc "x"; proc "b"; proc "y"] 2).
Proof.
  apply (updateProcesses_keys (<["a" := 0]> (<["b" := 1]> ∅))
           [proc "x"; proc "b"; proc "y"] 2 (<["x" := 0]> (<["b" := 1]> ∅)) "b" 1);
    by vm_compute.
Defined.

(** X5.  Whenever the call returns, every pid of the first [min(|P|, c)]
    processes that the old map does not know has an entry in the result,
    also when pids repeat or a pid is the empty string. *)
Theorem updateProcesses_new_pid_entry old processes c updated pid :
  updateProcesses old processes c = Ok updated →
  pid ∈ pids (firstN processes c) → old !! pid = None →
  is_Some (updated !! pid).
Proof.
  intros (Hc & Hb & ->)%updateProcesses_inv Hp Hnone.
  rewrite <-truncate_firstN in Hp by done.
  apply slotted_new_is_Some; [by apply length_pids_truncate|done..].
Qed.

Lemma updateProcesses_new_pid_entry_witness :
  is_Some ((<["" := 2]> (<["b" := 1]> ∅) : gmap string Z) !! "").
Proof.
  apply (updateProcesses_new_pid_entry (<["a" := 0]> (<["b" := 1]> ∅))
           [proc ""; proc "b"; proc ""] 3 _ "");
    [by vm_compute|compute_done|by vm_compute].
Defined.

(** ** The first poll *)

Lemma free_slots_replicate n i : free_slots (replicate n "") i = seq i n.
Proof.
  revert i. induction n as [|n IH]; intros i; simpl; [done|]. by rewrite IH.
Qed.

Lemma place_none_retained old ps found :
  (∀ p, p ∈ ps → old !! p = None) → place old ps found = found.
Proof.
  induction ps as [|p ps IH] using rev_ind; intros Hnone; [done|].
  rewrite place_snoc. unfold place_step.
  rewrite Hnone by (apply elem_of_app; right; by left).
  apply IH. intros q Hq. apply Hnone, elem_of_app. by left.
Qed.

Lemma newPids_none_retained old ps :
  (∀ p, p ∈ ps → old !! p = None) → newPids old ps = ps.
Proof.
  intros Hnone. unfold newPids.
  induction ps as [|p ps IH]; [done|].
  rewrite filter_cons_True by (apply Hnone; by left).
  f_equal. apply IH. intros q Hq. apply Hnone. by right.
Qed.

(** X6.  When the old map knows none of the first [min(|P|, c)] pids (as on
    the first poll, from the empty map) and the pids are distinct, every
    map the call returns gives the [k]-th process slot [k]. *)
Theorem updateProcesses_fresh_numbering old processes c updated :
  NoDup (pids processes) →
  (∀ pid, pid ∈ pids (firstN processes c) → old !! pid = None) →
  updateProcesses old processes c = Ok updated →
  ∀ k pid, pids (firstN processes c) !! k = Some pid →
           updated !! pid = Some (Z.of_nat k).
Proof.
  intros Hnd Hnone (Hc & Hb & ->)%updateProcesses_inv.
  rewrite <-truncate_firstN in * by done.
  set (ps := pids (truncate processes c)) in *.
  intros k pid Hk.
  destruct (slotted_new old ps c Hc Hb (length_pids_truncate _ _ Hc) k pid)
    as (e & He & Hs); [by apply NoDup_pids_truncate|by rewrite newPids_none_retained|].
  unfold placed in He.
  rewrite place_none_retained, free_slots_replicate in He by done.
  apply lookup_seq in He as [-> _]. by rewrite Hs.
Qed.

Lemma updateProcesses_fresh_numbering_witness :
  (<["abc" := 0]> (<["cdf" := 1]> ∅) : gmap string Z) !! "cdf" = Some 1.
Proof.
  apply (updateProcesses_fresh_numbering (<["old" := 1]> ∅)
           [proc "abc"; proc "cdf"; proc "dfe"] 2 _ ltac:(compute_done)
           ltac:(intros pid Hp; vm_compute in Hp;
                 apply elem_of_cons in Hp as [->|Hp]; [reflexivity|];
                 apply list_elem_of_singleton in Hp as ->; reflexivity)
           ltac:(vm_compute; reflexivity) 1%nat "cdf").
  reflexivity.
Defined.

(** ** What the result depends on *)

Lemma classify_ext old old' processes found missing :
  (∀ pid, pid ∈ pids processes → old !! pid = old' !! pid) →
  classify old processes found missing = classify old' processes found missing.
Proof.
  revert found missing.
  induction processes as [|p processes IH]; intros found missing Hagree; [done|].
  simpl. rewrite <-Hagree by by left.
  assert (∀ pid, pid ∈ pids processes → old !! pid = old' !! pid) as Hagree'.
  { intros pid Hpid. apply Hagree. by right. }
  destruct (old !! PID p) as [id|]; [|by apply IH].
  destruct (slice_store found id (PID p)); simpl; [by apply IH|done].
Qed.

(** X7.  The result depends on the old map only through its entries for
    the pids of the process list: entries for pids that are gone have no
    influence on the slots that are handed out. *)
Theorem updateProcesses_stale_entries_irrelevant old old' processes c :
  (∀ pid, pid ∈ pids processes → old !! pid = old' !! pid) →
  updateProcesses old processes c = updateProcesses old' processes c.
Proof.
  intros Hagree. unfold updateProcesses.
  destruct (make_strings c) as [found|p]; [|done]. simpl.
  rewrite (classify_ext old old'); [done|].
  intros pid Hpid. apply Hagree. unfold truncate in Hpid.
  case_decide; [|done]. unfold pids in *. rewrite fmap_take in Hpid.
  by apply subseteq_take in Hpid.
Qed.

Lemma updateProcesses_stale_entries_irrelevant_witness :
  updateProcesses (<["gone" := 0]> (<["abc" := 1]> ∅)) [proc "abc"; proc "new"] 2
  = updateProcesses (<["abc" := 1]> ∅) [proc "abc"; proc "new"] 2.
Proof.
  apply updateProcesses_stale_entries_irrelevant.
  intros pid Hp. vm_compute in Hp.
  apply elem_of_cons in Hp as [->|Hp]; [done|].
  by apply list_elem_of_singleton in Hp as ->.
Defined.

(** ** From one call to the next *)

(** X8.  A returned map never makes a later call fail on an index as long
    as the capacity does not shrink, whatever the later process list is:
    the only panic left to the later call is the allocation of [found]
    beyond the limit. *)
Theorem updateProcesses_next_call_no_index_panic
    old processes c updated processes' c' p :
  updateProcesses old processes c = Ok updated →
  c ≤ c' →
  updateProcesses updated processes' c' = Panic p →
  p = MakesliceLenOutOfRange ∧ maxAlloc < stringSize * c'.
Proof.
  intros (Hc & _ & ->)%updateProcesses_inv Hle Hp.
  destruct (slotted_injective old (pids (truncate processes c)) c Hc) as [_ Hb].
  apply updateProcesses_Panic_slots_below in Hp as [-> Hc']; [split; [done|lia]|].
  eapply map_Forall_impl; [exact Hb|]. simpl. intros; lia.
Qed.

Lemma updateProcesses_next_call_no_index_panic_witness :
  MakesliceLenOutOfRange = MakesliceLenOutOfRange ∧
  maxAlloc < stringSize * 4611686018427387904.
Proof.
  apply (updateProcesses_next_call_no_index_panic
           (<["a" := 0]> (<["b" := 1]> ∅)) [proc "x"; proc "b"; proc "y"] 2
           (<["x" := 0]> (<["b" := 1]> ∅)) [proc "b"; proc "q"]
           4611686018427387904);
    [vm_compute; reflexivity|lia|vm_compute; reflexivity].
Defined.

(** ** Edge cases *)

Lemma slotted_nil old c : 0 ≤ c → slotted old [] c = ∅.
Proof.
  intros Hc. apply map_empty. intros p. apply eq_None_not_Some.
  intros H. apply (slotted_keys old [] c) in H; [|done|constructor|simpl; lia].
  by apply elem_of_nil in H.
Qed.

(** X9.  With no process, every map the call returns is empty; with
    capacity zero the call returns the empty map: every entry of the old
    map is dropped. *)
Theorem updateProcesses_empty old processes :
  (∀ c updated, updateProcesses old [] c = Ok updated → updated = ∅) ∧
  updateProcesses old processes 0 = Ok ∅.
Proof.
  split.
  - intros c updated (Hc & _ & ->)%updateProcesses_inv.
    rewrite truncate_fits by (simpl; lia). by apply slotted_nil.
  - assert (truncate processes 0 = []) as Htr.
    { unfold truncate. by case_decide; [|destruct processes; simpl in *; [|lia]]. }
    rewrite updateProcesses_Ok; rewrite ?Htr; [|done|done|constructor].
    simpl. by rewrite slotted_nil.
Qed.

Lemma updateProcesses_empty_witness :
  (∅ : gmap string Z) = ∅ ∧
  updateProcesses (<["abc" := 0]> (<["cdf" := 7]> ∅)) [proc "cdf"] 0 = Ok ∅.
Proof.
  destruct (updateProcesses_empty (<["abc" := 0]> (<["cdf" := 7]> ∅))
              [proc "cdf"]) as [Hnone Hzero].
  split; [|exact Hzero].
  apply (Hnone 3 ∅). vm_compute. reflexivity.
Defined.

(** X10.  With distinct pids, a process beyond the first [c] of the list
    has no entry in the returned map, so [Collect] sends nothing for it. *)
Theorem updateProcesses_surplus_unmapped old processes c updated k p :
  NoDup (pids processes) →
  updateProcesses old processes c = Ok updated →
  processes !! k = Some p → c ≤ Z.of_nat k →
  updated !! PID p = None ∧
  ∀ name sent log,
    collectProcess name p
      {| ch := sent; processIdentifiers := updated; errlog := log |}
    = Ok {| ch := sent; processIdentifiers := updated; errlog := log |}.
Proof.
  intros Hnd (Hc & Hb & ->)%updateProcesses_inv Hk Hle.
  assert (slotted old (pids (truncate processes c)) c !! PID p = None) as Hnone.
  { apply eq_None_not_Some. intros H.
    apply slotted_keys in H; [|done..|by apply length_pids_truncate].
    unfold truncate, pids in H. case_decide.
    - rewrite fmap_take in H. apply elem_of_take in H as (j & Hj & Hlt).
      assert ((PID <$> processes) !! k = Some (PID p)) as Hk'.
      { by rewrite list_lookup_fmap, Hk. }
      pose proof (NoDup_lookup _ _ _ _ Hnd Hj Hk'). lia.
    - apply lookup_lt_Some in Hk. lia. }
  split; [done|]. intros name sent log. by apply collectProcess_None.
Qed.

Lemma updateProcesses_surplus_unmapped_witness :
  (<["abc" := 0]> (<["def" := 1]> (<["hij" := 2]> ∅)) : gmap string Z)
    !! PID (proc "klm") = None ∧
  ∀ name sent log,
    collectProcess name (proc "klm")
      {| ch := sent;
         processIdentifiers := <["abc" := 0]> (<["def" := 1]> (<["hij" := 2]> ∅));
         errlog := log |}
    = Ok {| ch := sent;
            processIdentifiers := <["abc" := 0]> (<["def" := 1]> (<["hij" := 2]> ∅));
            errlog := log |}.
Proof.
  apply (updateProcesses_surplus_unmapped
           (<["abc" := 0]> (<["def" := 1]> (<["hij" := 2]> ∅)))
           [proc "abc"; proc "def"; proc "hij"; proc "klm"] 3 _ 3 (proc "klm"));
    [compute_done|by vm_compute|done|lia].
Defined.

(** * Further properties of [Collect] *)

(** ** One supergroup *)

Lemma collectSuperGroup_Ok max sg s updated :
  updateProcesses (processIdentifiers s) (Processes (SGroup sg)) max = Ok updated →
  collectSuperGroup max sg s
  = Ok {| ch := ch s ++ groupMetrics sg updated;
          processIdentifiers := updated;
          errlog := errlog s |}.
Proof.
  intros H. unfold collectSuperGroup, groupMetrics.
  repeat (rewrite send_Ok by done; simpl). rewrite H. simpl.
  rewrite collectProcesses_Ok. simpl. by rewrite <-!app_assoc.
Qed.

Lemma collectSuperGroup_Panic max sg s p :
  updateProcesses (processIdentifiers s) (Processes (SGroup sg)) max = Panic p →
  collectSuperGroup max sg s = Panic p.
Proof.
  intros H. unfold collectSuperGroup.
  repeat (rewrite send_Ok by done; simpl). by rewrite H.
Qed.

Lemma processMetrics_elem name slot p m :
  m ∈ processMetrics name slot p →
  processDesc (desc m) = true ∧ labelValues m = [name; Itoa slot].
Proof.
  unfold processMetrics. rewrite !elem_of_cons, elem_of_nil.
  intros [->|[->|[->|[]]]]; done.
Qed.

Lemma translate_elem name ids procs m :
  m ∈ concat (translateProcess name ids <$> procs) →
  ∃ p slot, p ∈ procs ∧ ids !! PID p = Some slot ∧
            m ∈ processMetrics name slot p.
Proof.
  induction procs as [|p procs IH]; simpl; [by intros ?%elem_of_nil|].
  rewrite elem_of_app. intros [H|H].
  - unfold translateProcess in H.
    destruct (ids !! PID p) as [slot|] eqn:E; [|by apply elem_of_nil in H].
    exists p, slot. split_and!; [by left|done..].
  - destruct (IH H) as (q & slot & Hq & Hs & Hm).
    exists q, slot. split_and!; [by right|done..].
Qed.

Lemma NoDup_series_processMetrics name slot p :
  NoDup (series <$> processMetrics name slot p).
Proof.
  unfold processMetrics, series. simpl.
  repeat (apply NoDup_cons; split;
          [rewrite ?elem_of_cons, elem_of_nil; intros H;
           repeat (destruct H as [H|H]; [discriminate H|]); done|]).
  constructor.
Qed.

Lemma NoDup_series_translate name ids procs :
  injective ids → NoDup (pids procs) →
  NoDup (series <$> concat (translateProcess name ids <$> procs)).
Proof.
  intros Hinj. induction procs as [|p procs IH]; simpl; [constructor|].
  intros [Hp Hnd]%NoDup_cons. rewrite fmap_app. apply NoDup_app.
  split_and!; [| |by apply IH].
  - unfold translateProcess. destruct (ids !! PID p); [|constructor].
    apply NoDup_series_processMetrics.
  - intros x (m1 & -> & H1)%list_elem_of_fmap (m2 & Heq & H2)%list_elem_of_fmap.
    unfold translateProcess in H1.
    destruct (ids !! PID p) as [slot|] eqn:E; [|by apply elem_of_nil in H1].
    apply processMetrics_elem in H1 as [_ Hl1].
    apply translate_elem in H2 as (q & slot' & Hq & Hs & H2).
    apply processMetrics_elem in H2 as [_ Hl2].
    unfold series in Heq. rewrite Hl1, Hl2 in Heq.
    assert (slot = slot') as <-.
    { injection Heq as Heq. by apply (inj pretty). }
    apply Hp. rewrite (Hinj (PID p) (PID q) slot E Hs).
    unfold pids. by apply list_elem_of_fmap_2.
Qed.

Lemma groupMetrics_elem sg ids m :
  m ∈ groupMetrics sg ids →
  groupDesc (desc m) = true ∧ ∃ rest, labelValues m = Name sg :: rest.
Proof.
  unfold groupMetrics. rewrite elem_of_app, !elem_of_cons, elem_of_nil.
  intros [[->|[->|[]]]|H]; [by eauto..|].
  apply translate_elem in H as (p & slot & _ & _ & H).
  apply processMetrics_elem in H as [Hd ->]. split; [|by eauto].
  by destruct (desc m).
Qed.

Lemma NoDup_series_groupMetrics sg ids :
  injective ids → NoDup (pids (Processes (SGroup sg))) →
  NoDup (series <$> groupMetrics sg ids).
Proof.
  intros Hinj Hnd. unfold groupMetrics. rewrite fmap_app. apply NoDup_app.
  split_and!; [| |by apply NoDup_series_translate].
  - unfold series. simpl.
    repeat (apply NoDup_cons; split;
            [rewrite ?elem_of_cons, elem_of_nil; intros H;
             repeat (destruct H as [H|H]; [discriminate H|]); done|]).
    constructor.
  - intros x Hx (m & -> & H)%list_elem_of_fmap.
    apply translate_elem in H as (p & slot & _ & _ & H).
    apply processMetrics_elem in H as [Hd Hl].
    unfold series in Hx. simpl in Hx.
    rewrite !elem_of_cons, elem_of_nil in Hx.
    destruct Hx as [Hx|[Hx|[]]]; injection Hx as Hx _;
      rewrite Hx in Hd; done.
Qed.

(** ** The whole poll *)

(** When [found] can be allocated and the slots of the map lie below the
    capacity, the loop over the supergroups returns. *)
Lemma collectSuperGroups_slots max sgs s :
  0 ≤ max → stringSize * max ≤ maxAlloc →
  slots_below max (processIdentifiers s) →
  ∃ s', for_range (collectSuperGroup max) sgs s = Ok s' ∧
        slots_below max (processIdentifiers s') ∧
        errlog s' = errlog s.
Proof.
  intros Hmax Halloc. revert s. induction sgs as [|sg sgs IH]; intros s Hb; simpl.
  - by exists s.
  - assert (∃ updated, updateProcesses (processIdentifiers s)
                         (Processes (SGroup sg)) max = Ok updated)
      as [updated Hu].
    { eexists. apply updateProcesses_Ok; [done|done|].
      by apply slots_below_retained. }
    rewrite (collectSuperGroup_Ok _ _ _ updated) by done. simpl.
    apply updateProcesses_inv in Hu as (_ & _ & ->).
    destruct (slotted_injective (processIdentifiers s)
                (pids (truncate (Processes (SGroup sg)) max)) max Hmax) as [_ Hb'].
    destruct (IH {| ch := ch s ++ groupMetrics sg
                            (slotted (processIdentifiers s)
                               (pids (truncate (Processes (SGroup sg)) max)) max);
                    processIdentifiers :=
                      slotted (processIdentifiers s)
                        (pids (truncate (Processes (SGroup sg)) max)) max;
                    errlog := errlog s |} Hb') as (s' & Hs' & Hb'' & Hlog).
    by exists s'.
Qed.

(** What the loop over the supergroups leaves, from a map whose slots lie
    below the capacity: a map with slots below the capacity and the same
    log, or the panic of an allocation of [found]. *)
Lemma collectSuperGroups_within max sgs s :
  slots_below max (processIdentifiers s) →
  match for_range (collectSuperGroup max) sgs s with
  | Ok s' => slots_below max (processIdentifiers s') ∧ errlog s' = errlog s
  | Panic p => p = MakesliceLenOutOfRange
  end.
Proof.
  revert s. induction sgs as [|sg sgs IH]; intros s Hb; simpl; [done|].
  destruct (updateProcesses (processIdentifiers s) (Processes (SGroup sg)) max)
    as [updated|p] eqn:Hu.
  - rewrite (collectSuperGroup_Ok _ _ _ updated) by done. simpl.
    apply updateProcesses_inv in Hu as (Hmax & _ & ->).
    destruct (slotted_injective (processIdentifiers s)
                (pids (truncate (Processes (SGroup sg)) max)) max Hmax) as [_ Hb'].
    exact (IH {| ch := ch s ++ groupMetrics sg
                         (slotted (processIdentifiers s)
                            (pids (truncate (Processes (SGroup sg)) max)) max);
                 processIdentifiers :=
                   slotted (processIdentifiers s)
                     (pids (truncate (Processes (SGroup sg)) max)) max;
                 errlog := errlog s |} Hb').
  - rewrite (collectSuperGroup_Panic _ _ _ p) by done. simpl.
    by apply updateProcesses_Panic_slots_below in Hu as [-> _].
Qed.

Lemma Collect_success_unfold info s :
  Collect (inr info) s
  = for_range (collectSuperGroup (MaxProcessCount info)) (SuperGroups info)
      {| ch := ch s ++
           [ {| desc := up; valueType := GaugeValue; value := 1;
                labelValues := [] |};
             {| desc := version; valueType := GaugeValue; value := 1;
                labelValues := [PassengerVersion info] |};
             {| desc := topLevelRequestQueue; valueType := GaugeValue;
                value := TopLevelRequestQueueSize info; labelValues := [] |};
             {| desc := maxProcessCount; valueType := GaugeValue;
                value := MaxProcessCount info; labelValues := [] |};
             {| desc := currentProcessCount; valueType := GaugeValue;
                value := CurrentProcessCount info; labelValues := [] |};
             {| desc := appGroupCount; valueType := GaugeValue;
                value := AppGroupCount info; labelValues := [] |} ];
         processIdentifiers := processIdentifiers s;
         errlog := errlog s |}.
Proof.
  unfold Collect. repeat (rewrite send_Ok by done; simpl).
  by rewrite <-!app_assoc.
Qed.

(** X11.  When the slots of [processIdentifiers] lie below the capacity, a
    poll with a successful status never fails on an index: the only
    panic left is the allocation of [found]; and a poll that returns
    leaves a map whose slots lie below the capacity again, and logs
    nothing. *)
Theorem Collect_within_capacity info s :
  slots_below (MaxProcessCount info) (processIdentifiers s) →
  (∀ p, Collect (inr info) s = Panic p → p = MakesliceLenOutOfRange) ∧
  (∀ s', Collect (inr info) s = Ok s' →
         slots_below (MaxProcessCount info) (processIdentifiers s') ∧
         errlog s' = errlog s).
Proof.
  intros Hb. rewrite Collect_success_unfold.
  match goal with |- context [for_range _ _ ?s0] =>
    pose proof (collectSuperGroups_within (MaxProcessCount info)
                  (SuperGroups info) s0 Hb) as H
  end.
  split.
  - intros p E. by rewrite E in H.
  - intros s' E. by rewrite E in H.
Qed.

Lemma Collect_within_capacity_witness :
  let sg := {| Name := "app";
               SGroup := {| RequestQueueSize := 0; ProcessesSpawning := 0;
                            Processes := [proc "abc"; proc "cdf"; proc "new"] |} |} in
  let info := {| PassengerVersion := "6.0.17"; AppGroupCount := 1;
                 CurrentProcessCount := 3; MaxProcessCount := 2;
                 TopLevelRequestQueueSize := 0; SuperGroups := [sg; sg] |} in
  let s := {| ch := []; processIdentifiers := <["gone" := 1]> ∅; errlog := [] |} in
  ∃ s', Collect (inr info) s = Ok s' ∧
        slots_below 2 (processIdentifiers s') ∧
        errlog s' = [].
Proof.
  intros sg info s.
  destruct (Collect_within_capacity info s ltac:(compute_done)) as [_ Hret].
  destruct (Collect (inr info) s) as [s'|p] eqn:E;
    [|vm_compute in E; discriminate E].
  exists s'. split; [reflexivity|]. exact (Hret s' eq_refl).
Defined.

Lemma Collect_inl_no_panic err s p : Collect (inl err) s = Panic p → False.
Proof. unfold Collect. by rewrite send_Ok. Qed.

(** X12.  The failure path never panics, and no [MustNewConstMetric] call
    of a poll panics: a poll panics only in the call of [updateProcesses]
    for its first supergroup, on the map the poll started with. *)
Theorem Collect_panics_at_first_group status s p :
  Collect status s = Panic p →
  ∃ info sg rest,
    status = inr info ∧ SuperGroups info = sg :: rest ∧
    updateProcesses (processIdentifiers s) (Processes (SGroup sg))
      (MaxProcessCount info) = Panic p.
Proof.
  destruct status as [err|info]; [by intros ?%Collect_inl_no_panic|].
  rewrite Collect_success_unfold.
  destruct (SuperGroups info) as [|sg rest] eqn:Hsgs; simpl; [done|].
  set (s0 := {| ch := _; processIdentifiers := processIdentifiers s;
                errlog := errlog s |}).
  destruct (updateProcesses (processIdentifiers s) (Processes (SGroup sg))
              (MaxProcessCount info)) as [updated|p'] eqn:Hu.
  - rewrite (collectSuperGroup_Ok _ _ s0 updated) by done. simpl.
    pose proof (updateProcesses_inv_alloc _ _ _ _ Hu) as [_ Halloc].
    apply updateProcesses_inv in Hu as (Hmax & _ & ->).
    destruct (slotted_injective (processIdentifiers s)
                (pids (truncate (Processes (SGroup sg)) (MaxProcessCount info)))
                (MaxProcessCount info) Hmax) as [_ Hb].
    match goal with |- for_range _ _ ?s1 = _ → _ =>
      destruct (collectSuperGroups_slots (MaxProcessCount info) rest s1
                  Hmax Halloc Hb) as (s' & -> & _)
    end.
    done.
  - rewrite (collectSuperGroup_Panic _ _ s0 p') by done. simpl.
    intros [= <-]. by exists info, sg, rest.
Qed.

Lemma Collect_panics_at_first_group_witness :
  let sg := {| Name := "app";
               SGroup := {| RequestQueueSize := 0; ProcessesSpawning := 0;
                            Processes := [proc "efg"] |} |} in
  let info0 := {| PassengerVersion := "6.0.17"; AppGroupCount := 1;
                  CurrentProcessCount := 1; MaxProcessCount := 3;
                  TopLevelRequestQueueSize := 0; SuperGroups := [sg] |} in
  let s := {| ch := []; processIdentifiers := <["efg" := 3]> ∅; errlog := [] |} in
  ∃ info sg rest,
    @inr status_error Info info0 = inr info ∧ SuperGroups info = sg :: rest ∧
    updateProcesses (processIdentifiers s) (Processes (SGroup sg))
      (MaxProcessCount info) = Panic (IndexOutOfRange 3 3).
Proof.
  intros sg info0 s.
  apply (Collect_panics_at_first_group (inr info0) s). by vm_compute.
Defined.

(** ** What a poll sends *)

Lemma groupMetrics_slot sg ids max m :
  slots_below max ids →
  m ∈ groupMetrics sg ids → processDesc (desc m) = true →
  ∃ slot, 0 ≤ slot < max ∧ labelValues m = [Name sg; Itoa slot].
Proof.
  intros Hb. unfold groupMetrics. rewrite elem_of_app, !elem_of_cons, elem_of_nil.
  intros [[->|[->|[]]]|H]; [done..|]. intros _.
  apply translate_elem in H as (p & slot & _ & Hs & H).
  apply processMetrics_elem in H as [_ ->].
  exists slot. split; [|done]. by apply (Hb (PID p)).
Qed.

(** The measurements the loop over the supergroups sends. *)
Lemma collectSuperGroups_sent max sgs s s' :
  for_range (collectSuperGroup max) sgs s = Ok s' →
  ∃ new, ch s' = ch s ++ new ∧
    (∀ m, m ∈ new →
       groupDesc (desc m) = true ∧
       ∃ sg, sg ∈ sgs ∧
         (∃ rest, labelValues m = Name sg :: rest) ∧
         (processDesc (desc m) = true →
          ∃ slot, 0 ≤ slot < max ∧ labelValues m = [Name sg; Itoa slot])) ∧
    (NoDup (Name <$> sgs) →
     Forall (λ sg, NoDup (pids (Processes (SGroup sg)))) sgs →
     NoDup (series <$> new)).
Proof.
  revert s. induction sgs as [|sg sgs IH]; intros s; simpl.
  - intros [= <-]. exists []. rewrite app_nil_r. split_and!; [done| |constructor].
    by intros m ?%elem_of_nil.
  - intros (s1 & H1 & Hrest)%bind_Ok.
    destruct (updateProcesses (processIdentifiers s) (Processes (SGroup sg)) max)
      as [updated|p] eqn:Hu;
      [|by rewrite (collectSuperGroup_Panic _ _ _ p) in H1].
    rewrite (collectSuperGroup_Ok _ _ _ updated) in H1 by done.
    injection H1 as <-.
    apply updateProcesses_inv in Hu as (Hmax & _ & Hupd).
    destruct (slotted_injective (processIdentifiers s)
                (pids (truncate (Processes (SGroup sg)) max)) max Hmax)
      as [Hinj Hb].
    rewrite <-Hupd in Hinj, Hb. clear Hupd.
    destruct (IH _ Hrest) as (new & Hch & Helem & Hnd). simpl in Hch.
    exists (groupMetrics sg updated ++ new).
    split_and!; [by rewrite Hch, <-app_assoc| |].
    + intros m [Hm|Hm]%elem_of_app.
      * destruct (groupMetrics_elem _ _ _ Hm) as [Hd Hl].
        split; [done|]. exists sg. split_and!; [by left|done|].
        by apply (groupMetrics_slot sg updated).
      * destruct (Helem m Hm) as (Hd & sg' & Hsg' & Hl).
        split; [done|]. exists sg'. split; [by right|done].
    + intros [Hname Hnames]%NoDup_cons [Hpids Hrestpids]%Forall_cons.
      rewrite fmap_app. apply NoDup_app. split_and!.
      * by apply NoDup_series_groupMetrics.
      * intros x (m1 & -> & Hm1)%list_elem_of_fmap (m2 & Heq & Hm2)%list_elem_of_fmap.
        apply groupMetrics_elem in Hm1 as (_ & rest1 & Hl1).
        destruct (Helem m2 Hm2) as (_ & sg' & Hsg' & (rest2 & Hl2) & _).
        unfold series in Heq. rewrite Hl1, Hl2 in Heq.
        injection Heq as _ Heq _. apply Hname. rewrite Heq.
        by apply list_elem_of_fmap_2.
      * by apply Hnd.
Qed.

(** X13.  A poll that returns has sent no two measurements of the same
    time series (same descriptor and label values), provided the
    supergroups have different names and the pids within each supergroup
    are distinct. *)
Theorem Collect_series_distinct info s s' :
  NoDup (Name <$> SuperGroups info) →
  Forall (λ sg, NoDup (pids (Processes (SGroup sg)))) (SuperGroups info) →
  Collect (inr info) s = Ok s' →
  ∃ new, ch s' = ch s ++ new ∧ NoDup (series <$> new).
Proof.
  intros Hnames Hpids. rewrite Collect_success_unfold.
  intros (new & Hch & Helem & Hnd)%collectSuperGroups_sent. simpl in Hch.
  rewrite <-app_assoc in Hch. eexists. split; [exact Hch|].
  rewrite fmap_app. apply NoDup_app. split_and!.
  - unfold series. simpl.
    repeat (apply NoDup_cons; split;
            [rewrite ?elem_of_cons, elem_of_nil; intros H;
             repeat (destruct H as [H|H]; [discriminate H|]); done|]).
    constructor.
  - intros x Hx (m & -> & Hm)%list_elem_of_fmap.
    destruct (Helem m Hm) as [Hd _].
    unfold series in Hx. simpl in Hx.
    rewrite !elem_of_cons, elem_of_nil in Hx.
    repeat (destruct Hx as [Hx|Hx];
            [injection Hx as Hx _; rewrite Hx in Hd; discriminate Hd|]).
    done.
  - by apply Hnd.
Qed.

Lemma Collect_series_distinct_witness :
  let sg name ps :=
    {| Name := name;
       SGroup := {| RequestQueueSize := 0; ProcessesSpawning := 0;
                    Processes := ps |} |} in
  let info := {| PassengerVersion := "one"; AppGroupCount := 2;
                 CurrentProcessCount := 3; MaxProcessCount := 2;
                 TopLevelRequestQueueSize := 0;
                 SuperGroups := [sg "one" [proc "a"; proc "b"];
                                 sg "two" [proc "c"]] |} in
  let s := {| ch := []; processIdentifiers := ∅; errlog := [] |} in
  ∃ s' new, Collect (inr info) s = Ok s' ∧
            ch s' = ch s ++ new ∧ NoDup (series <$> new).
Proof.
  intros sg info s.
  destruct (Collect (inr info) s) as [s'|p] eqn:E; [|by vm_compute in E].
  destruct (Collect_series_distinct info s s') as (new & Hch & Hnd);
    [compute_done|compute_done|done|].
  exists s', new. split; [reflexivity|]. split; [exact Hch|exact Hnd].
Defined.

(** X14.  Every per-process measurement a poll sends is labelled with the
    name of one of the snapshot's supergroups and a slot of
    [[0, MaxProcessCount)]: the label values of the per-process series
    stay within the capacity, whatever pids come and go. *)
Theorem Collect_slot_labels_bounded info s s' :
  Collect (inr info) s = Ok s' →
  ∃ new, ch s' = ch s ++ new ∧
    ∀ m, m ∈ new → processDesc (desc m) = true →
      ∃ sg slot, sg ∈ SuperGroups info ∧
                 0 ≤ slot < MaxProcessCount info ∧
                 labelValues m = [Name sg; Itoa slot].
Proof.
  rewrite Collect_success_unfold.
  intros (new & Hch & Helem & _)%collectSuperGroups_sent. simpl in Hch.
  rewrite <-app_assoc in Hch. eexists. split; [exact Hch|].
  intros m [Hm|Hm]%elem_of_app Hd.
  - rewrite !elem_of_cons, elem_of_nil in Hm.
    repeat (destruct Hm as [Hm|Hm]; [by rewrite Hm in Hd|]). done.
  - destruct (Helem m Hm) as (_ & sg & Hsg & _ & Hslot).
    destruct (Hslot Hd) as (slot & Hr & Hl). by exists sg, slot.
Qed.

Lemma Collect_slot_labels_bounded_witness :
  let sg := {| Name := "app";
               SGroup := {| RequestQueueSize := 0; ProcessesSpawning := 0;
                            Processes := [proc "abc"; proc "new"] |} |} in
  let info := {| PassengerVersion := "6.0.17"; AppGroupCount := 1;
                 CurrentProcessCount := 2; MaxProcessCount := 2;
                 TopLevelRequestQueueSize := 0; SuperGroups := [sg] |} in
  let s := {| ch := []; processIdentifiers := <["abc" := 1]> ∅; errlog := [] |} in
  ∃ s' new, Collect (inr info) s = Ok s' ∧ ch s' = ch s ++ new ∧
    ∀ m, m ∈ new → processDesc (desc m) = true →
      ∃ sg slot, sg ∈ SuperGroups info ∧
                 0 ≤ slot < MaxProcessCount info ∧
                 labelValues m = [Name sg; Itoa slot].
Proof.
  intros sg info s.
  destruct (Collect (inr info) s) as [s'|p] eqn:E; [|by vm_compute in E].
  destruct (Collect_slot_labels_bounded info s s' E) as (new & Hch & Hm).
  exists s', new. split; [reflexivity|]. split; [exact Hch|exact Hm].
Defined.

(** * [NewExporter] *)

Lemma Split_nonempty s : Split s ≠ [].
Proof.
  destruct s as [|a s]; simpl; [done|].
  case_decide; [done|]. by destruct (Split s).
Qed.

Lemma concat_Split s : String.concat " " (Split s) = s.
Proof.
  induction s as [|a s IH]; simpl; [done|].
  pose proof (Split_nonempty s) as Hne.
  destruct (Split s) as [|field fields]; [done|].
  case_decide as Ha.
  - subst a. simpl in *. by rewrite IH.
  - destruct fields as [|field' fields]; simpl in *.
    + by f_equal.
    + by rewrite <-IH.
Qed.

Lemma has_space_Split s : Forall (λ field, has_space field = false) (Split s).
Proof.
  induction s as [|a s IH]; simpl; [by repeat constructor|].
  case_decide as Ha; [by constructor|].
  destruct (Split s) as [|field fields].
  - constructor; [|done]. simpl. by rewrite bool_decide_false.
  - apply Forall_cons in IH as [Hf Hfs]. constructor; [|done].
    simpl. by rewrite bool_decide_false, Hf.
Qed.

(** X15.  [NewExporter] never panics on [cmdComponents[0]]: it returns an
    exporter whose command and arguments contain no space and, joined by
    single spaces, give back the command string; so a doubled space in the
    command string becomes an empty argument. *)
Theorem NewExporter_splits_command {float64 : Type} command (seconds : float64) :
  ∃ e, NewExporter command seconds = Ok e ∧
       String.concat " " (cmd e :: args e) = command ∧
       has_space (cmd e) = false ∧
       Forall (λ arg, has_space arg = false) (args e) ∧
       timeout e = seconds.
Proof.
  unfold NewExporter.
  pose proof (Split_nonempty command) as Hne.
  pose proof (concat_Split command) as Hjoin.
  pose proof (has_space_Split command) as Hsp.
  destruct (Split command) as [|first rest]; [done|]. simpl.
  apply Forall_cons in Hsp as [Hfirst Hrest].
  eexists. split; [done|]. simpl. by rewrite drop_0.
Qed.

Example NewExporter_default :
  NewExporter "passenger-status --show=xml" 5%Z
  = Ok {| cmd := "passenger-status"; args := ["--show=xml"]; timeout := 5%Z |}.
Proof. reflexivity. Qed.

Example NewExporter_doubled_space :
  NewExporter "sleep  1" 5%Z
  = Ok {| cmd := "sleep"; args := [""; "1"]; timeout := 5%Z |}.
Proof. reflexivity. Qed.

(** * From poll to poll *)

Lemma updateEach_snoc max sgs sg ids :
  updateEach max (sgs ++ [sg]) ids
  = updateEach max sgs ids ≫= λ ids',
      updateProcesses ids' (Processes (SGroup sg)) max.
Proof.
  revert ids. induction sgs as [|sg' sgs IH]; intros ids; simpl.
  - by destruct (updateProcesses _ _ _).
  - destruct (updateProcesses ids (Processes (SGroup sg')) max); simpl; [|done].
    apply IH.
Qed.

Lemma Collect_ids info s s' :
  Collect (inr info) s = Ok s' →
  updateEach (MaxProcessCount info) (SuperGroups info) (processIdentifiers s)
  = Ok (processIdentifiers s').
Proof.
  rewrite Collect_success_unfold. intros H.
  match type of H with for_range _ _ ?s0 = _ =>
    pose proof (collectSuperGroups_ids (MaxProcessCount info)
                  (SuperGroups info) s0) as E
  end.
  rewrite H in E. simpl in E. by rewrite <-E.
Qed.

(** X16.  After a poll that returns, [processIdentifiers] is the result of
    the call for the last supergroup of the snapshot: it is injective, its
    slots lie in [[0, MaxProcessCount)], and its keys are pids of the
    first [MaxProcessCount] processes of that supergroup alone. *)
Theorem Collect_map_of_last_group info front last s s' :
  SuperGroups info = front ++ [last] →
  Collect (inr info) s = Ok s' →
  injective (processIdentifiers s') ∧
  slots_below (MaxProcessCount info) (processIdentifiers s') ∧
  ∀ pid slot, processIdentifiers s' !! pid = Some slot →
    pid ∈ pids (firstN (Processes (SGroup last)) (MaxProcessCount info)).
Proof.
  intros Hsgs Hs'%Collect_ids.
  rewrite Hsgs, updateEach_snoc in Hs'.
  apply bind_Ok in Hs' as (ids & _ & (Hmax & Hb & ->)%updateProcesses_inv).
  destruct (slotted_injective ids
              (pids (truncate (Processes (SGroup last)) (MaxProcessCount info)))
              (MaxProcessCount info) Hmax) as [Hinj Hbelow].
  split_and!; [done..|].
  intros pid slot Hs. rewrite <-truncate_firstN by done.
  apply (slotted_keys ids _ (MaxProcessCount info));
    [done..|by apply length_pids_truncate|by eexists].
Qed.

Lemma Collect_map_of_last_group_witness :
  let sg name ps :=
    {| Name := name;
       SGroup := {| RequestQueueSize := 0; ProcessesSpawning := 0;
                    Processes := ps |} |} in
  let info := {| PassengerVersion := "6.0.17"; AppGroupCount := 2;
                 CurrentProcessCount := 3; MaxProcessCount := 2;
                 TopLevelRequestQueueSize := 0;
                 SuperGroups := [sg "one" [proc "a"; proc "b"];
                                 sg "two" [proc "c"]] |} in
  let s := {| ch := []; processIdentifiers := <["a" := 1]> ∅; errlog := [] |} in
  ∃ s', Collect (inr info) s = Ok s' ∧
    injective (processIdentifiers s') ∧
    slots_below 2 (processIdentifiers s') ∧
    ∀ pid slot, processIdentifiers s' !! pid = Some slot →
      pid ∈ pids (firstN [proc "c"] 2).
Proof.
  intros sg info s.
  destruct (Collect (inr info) s) as [s'|p] eqn:E; [|by vm_compute in E].
  exists s'. split; [reflexivity|].
  exact (Collect_map_of_last_group info [sg "one" [proc "a"; proc "b"]]
           (sg "two" [proc "c"]) s s' eq_refl E).
Defined.

Lemma translate_elem_intro name ids procs p slot m :
  p ∈ procs → ids !! PID p = Some slot →
  m ∈ processMetrics name slot p →
  m ∈ concat (translateProcess name ids <$> procs).
Proof.
  intros Hin Hs Hm. induction procs as [|q procs IH]; simpl;
    [by apply elem_of_nil in Hin|].
  apply elem_of_app. apply elem_of_cons in Hin as [<-|Hin].
  - left. unfold translateProcess. by rewrite Hs.
  - right. by apply IH.
Qed.

(** X17.  A process keeps its label from one poll to the next: when the
    snapshot has one supergroup, the map the poll starts with is
    injective, and a process with a non-empty pid among the first
    [MaxProcessCount] processes has slot [slot] in it, a poll that returns
    leaves that pid at [slot] and has sent the three measurements of the
    process under [slot]. *)
Theorem Collect_label_stable info sg s s' p slot :
  SuperGroups info = [sg] →
  injective (processIdentifiers s) →
  p ∈ firstN (Processes (SGroup sg)) (MaxProcessCount info) →
  PID p ≠ "" →
  processIdentifiers s !! PID p = Some slot →
  Collect (inr info) s = Ok s' →
  processIdentifiers s' !! PID p = Some slot ∧
  ∀ m, m ∈ processMetrics (Name sg) slot p → m ∈ ch s'.
Proof.
  intros Hsgs Hinj Hp Hne Hslot.
  rewrite Collect_success_unfold, Hsgs. simpl.
  set (max := MaxProcessCount info) in *.
  set (s0 := {| ch := _; processIdentifiers := processIdentifiers s;
                errlog := errlog s |}).
  destruct (updateProcesses (processIdentifiers s) (Processes (SGroup sg)) max)
    as [updated|p'] eqn:Hu.
  2: { by rewrite (collectSuperGroup_Panic _ _ s0 p') by done. }
  rewrite (collectSuperGroup_Ok _ _ s0 updated) by done. simpl.
  intros [= <-]. simpl.
  apply updateProcesses_inv in Hu as (Hmax & Hr & ->).
  rewrite <-truncate_firstN in Hp by done.
  set (ps := pids (truncate (Processes (SGroup sg)) max)) in *.
  assert (slotted (processIdentifiers s) ps max !! PID p = Some slot) as Hkept.
  { apply slotted_retained; [done..| |done| |done].
    - intros q _ Hq. by apply (Hinj q (PID p) slot).
    - unfold ps, pids. by apply list_elem_of_fmap_2. }
  split; [done|].
  intros m Hm. apply elem_of_app. right.
  unfold groupMetrics. apply elem_of_app. right.
  assert (p ∈ Processes (SGroup sg)) as Hin.
  { unfold truncate in Hp. case_decide; [|done]. by apply subseteq_take in Hp. }
  by apply (translate_elem_intro _ _ _ p slot).
Qed.

Lemma Collect_label_stable_witness :
  let p := {| PID := "cdf"; RequestsProcessed := 9;
              SpawnStartTime := 2000000; RealMemory := 512 |} in
  let sg := {| Name := "app";
               SGroup := {| RequestQueueSize := 0; ProcessesSpawning := 0;
                            Processes := [proc "new"; p] |} |} in
  let info := {| PassengerVersion := "6.0.17"; AppGroupCount := 1;
                 CurrentProcessCount := 2; MaxProcessCount := 3;
                 TopLevelRequestQueueSize := 0; SuperGroups := [sg] |} in
  let s := {| ch := [];
              processIdentifiers := <["abc" := 0]> (<["cdf" := 1]> ∅);
              errlog := [] |} in
  ∃ s', Collect (inr info) s = Ok s' ∧
        processIdentifiers s' !! "cdf" = Some 1 ∧
        ∀ m, m ∈ processMetrics "app" 1 p → m ∈ ch s'.
Proof.
  intros p sg info s.
  destruct (Collect (inr info) s) as [s'|q] eqn:E;
    [|vm_compute in E; discriminate E].
  exists s'. split; [reflexivity|].
  apply (Collect_label_stable info sg s s' p 1);
    [reflexivity| | |discriminate|reflexivity|exact E].
  - clear E. intros a b slot. unfold s. simpl.
    rewrite !lookup_insert_Some, lookup_empty. naive_solver.
  - clear E. vm_compute. right. left.
Defined.
